(** * Rectangle bin packing: [math::BinPackingSpace]

    A shallow embedding of [src/geometry/bin_packing_space.hpp] and the
    properties of its recursive [insert].

    The packer keeps a binary tree of axis-aligned regions.  A leaf is a
    free or a taken region; inserting a size into a free leaf that is
    larger than the request splits the leaf in two and recurses into the
    first half.  The tree is mutated in place by the C++ code; here every
    operation returns the new tree next to its result. *)

From Stdlib Require Import ZArith List Bool Lia Permutation.
Import ListNotations.
Local Open Scope Z_scope.

(** ** Machine integers

    [Size2i] and [Rectanglei] hold C++ [int]s.  An [int] is a [Z] in
    [[int_min, int_max]]; [+] and [-] are followed by the two's complement
    wrap-around of a 32-bit register.  (Signed overflow is undefined in C++;
    the wrap is what the usual targets compute.  The theorems below about
    non-negative requests show along the way that no operation of [insert]
    leaves the range, so for them the choice does not matter.) *)

Definition int_min : Z := -2147483648.
Definition int_max : Z := 2147483647.

Definition in_int (z : Z) : Prop := int_min <= z <= int_max.

Definition wrap (z : Z) : Z := (z + 2147483648) mod 4294967296 - 2147483648.

Definition int_add (a b : Z) : Z := wrap (a + b).
Definition int_sub (a b : Z) : Z := wrap (a - b).

(** ** Geometry value types *)

(** Modelled from the spec: [size.hpp] and [rectangular.hpp] (and the point
    type they use) are included by [bin_packing_space.hpp] but are not among
    the sources.  Section 3 of the specification describes a Size as a width
    and a height and a Rectangle as an origin (a 2D point) and a Size; the
    code reads the fields [origin.x], [origin.y], [size.width] and
    [size.height]. *)
Record Point2i : Type := mkPoint { x : Z; y : Z }.
Record Size2i : Type := mkSize { width : Z; height : Z }.
Record Rectanglei : Type := mkRect { origin : Point2i; size : Size2i }.

(** Modelled from the spec: [Size2i::operator==] ("equality comparison on
    Size"), component-wise. *)
Definition size_eqb (a b : Size2i) : bool :=
  (width a =? width b) && (height a =? height b).

(** Modelled from the spec: the conversion from a [Size2i] to a [Rectanglei]
    used by [root(size)]: "bounds = (origin (0,0), that Size)". *)
Definition rect_of_size (s : Size2i) : Rectanglei := mkRect (mkPoint 0 0) s.

(** Modelled from the spec: the points of a rectangle.  Rectangles are
    regions of an integer surface (texels of an atlas): a rectangle with
    origin [(ox, oy)] and size [(w, h)] covers the columns [ox .. ox+w-1] and
    the rows [oy .. oy+h-1].  Two rectangles that only touch along an edge
    share no point, which is what "children tile the parent with no overlap"
    requires. *)
Definition contains (r : Rectanglei) (p : Point2i) : Prop :=
  x (origin r) <= x p < x (origin r) + width (size r) /\
  y (origin r) <= y p < y (origin r) + height (size r).

(** Two rectangles are disjoint when no point lies in both. *)
Definition rect_disjoint (a b : Rectanglei) : Prop :=
  forall p, ~ (contains a p /\ contains b p).

(** The same, decided on the coordinates: the two share a point exactly when
    their column ranges and their row ranges both intersect. *)
Definition overlapb (a b : Rectanglei) : bool :=
  (Z.max (x (origin a)) (x (origin b)) <?
   Z.min (x (origin a) + width (size a)) (x (origin b) + width (size b))) &&
  (Z.max (y (origin a)) (y (origin b)) <?
   Z.min (y (origin a) + height (size a)) (y (origin b) + height (size b))).

(** [rect_within r outer]: [r] lies entirely inside [outer], edge by edge. *)
Definition rect_within (r outer : Rectanglei) : Prop :=
  x (origin outer) <= x (origin r) /\
  y (origin outer) <= y (origin r) /\
  x (origin r) + width (size r) <= x (origin outer) + width (size outer) /\
  y (origin r) + height (size r) <= y (origin outer) + height (size outer).

(** ** The tree: [BinPackingSpace::Node] *)

(** [childs] is an array of two owning pointers, both null (a leaf) or both
    set: lines 89-90 and 92-93 are the only assignments, and they set the two
    together, which is what the [assert] of line 66 records.  [Leaf] is the
    node with null children. *)
Inductive Node : Type :=
| Leaf (b : Rectanglei) (tk : bool)
| Branch (b : Rectanglei) (tk : bool) (child0 child1 : Node).

Definition bounds (n : Node) : Rectanglei :=
  match n with Leaf b _ | Branch b _ _ _ => b end.

Definition taken (n : Node) : bool :=
  match n with Leaf _ tk | Branch _ tk _ _ => tk end.

(** Lines 82-94: the two children a leaf with bounds [b] gets when [sz] fits
    in it without filling it. *)
Definition split (b : Rectanglei) (sz : Size2i) : Node * Node :=
  let deltaWidth := int_sub (width (size b)) (width sz) in
  let deltaHeight := int_sub (height (size b)) (height sz) in
  if deltaWidth >? deltaHeight then
    (Leaf (mkRect (origin b)
                  (mkSize (int_sub (width (size b)) deltaWidth)
                          (height (size b)))) false,
     Leaf (mkRect (mkPoint (int_add (x (origin b)) (width sz)) (y (origin b)))
                  (mkSize deltaWidth (height (size b)))) false)
  else
    (Leaf (mkRect (origin b)
                  (mkSize (width (size b))
                          (int_sub (height (size b)) deltaHeight))) false,
     Leaf (mkRect (mkPoint (x (origin b)) (int_add (y (origin b)) (height sz)))
                  (mkSize (width (size b)) deltaHeight)) false).

(** [Node::insert], lines 56-100.  The C++ function returns a pointer to the
    bounds of the leaf it took, or [nullptr]; the model returns that
    rectangle, or [None], and the node after the call.

    The recursion of line 96 is on a node made by the call itself, so the
    function is not structural: [fuel] bounds the number of nested
    activations of [insert], and the outer [None] says the bound was reached
    (the C++ call is still running at that depth). *)
Fixpoint Node_insert (fuel : nat) (n : Node) (sz : Size2i)
  : option (option Rectanglei * Node) :=
  match fuel with
  | O => None
  | S fuel' =>
    match n with
    | Branch b tk child0 child1 =>
      match Node_insert fuel' child0 sz with
      | None => None
      | Some (Some result, child0') =>
          Some (Some result, Branch b tk child0' child1)
      | Some (None, child0') =>
        match Node_insert fuel' child1 sz with
        | None => None
        | Some (result, child1') => Some (result, Branch b tk child0' child1')
        end
      end
    | Leaf b tk =>
      if tk then Some (None, n)
      else if (width (size b) <? width sz) || (height (size b) <? height sz)
      then Some (None, n)
      else if size_eqb (size b) sz then Some (Some b, Leaf b true)
      else
        let '(child0, child1) := split b sz in
        match Node_insert fuel' child0 sz with
        | None => None
        | Some (result, child0') => Some (result, Branch b tk child0' child1)
        end
    end
  end.

(** ** The space: [BinPackingSpace] *)

Record BinPackingSpace : Type := mkSpace { root : Node }.

(** The constructor, lines 30-34. *)
Definition BinPackingSpace_new (sz : Size2i) : BinPackingSpace :=
  mkSpace (Leaf (rect_of_size sz) false).

(** [BinPackingSpace::insert], lines 38-41. *)
Definition BinPackingSpace_insert (fuel : nat) (sp : BinPackingSpace)
  (sz : Size2i) : option (option Rectanglei * BinPackingSpace) :=
  match Node_insert fuel (root sp) sz with
  | None => None
  | Some (result, root') => Some (result, mkSpace root')
  end.

(** [BinPackingSpace::getSize], line 44. *)
Definition getSize (sp : BinPackingSpace) : Size2i := size (bounds (root sp)).

(** A sequence of [insert] calls on one space, in call order: the results of
    the calls and the space after the last one. *)
Fixpoint run (fuel : nat) (sp : BinPackingSpace) (requests : list Size2i)
  : option (list (option Rectanglei) * BinPackingSpace) :=
  match requests with
  | [] => Some ([], sp)
  | sz :: rest =>
    match BinPackingSpace_insert fuel sp sz with
    | None => None
    | Some (result, sp') =>
      match run fuel sp' rest with
      | None => None
      | Some (results, sp'') => Some (result :: results, sp'')
      end
    end
  end.

(** The rectangles handed out by the successful calls, in call order. *)
Fixpoint placements (results : list (option Rectanglei)) : list Rectanglei :=
  match results with
  | [] => []
  | Some r :: rest => r :: placements rest
  | None :: rest => placements rest
  end.

(** ** Specification vocabulary *)

(** A request as Section 4.1 of the specification allows it: non-negative
    width and height. *)
Definition nonneg (sz : Size2i) : Prop := 0 <= width sz /\ 0 <= height sz.

(** A size whose two components are C++ [int]s. *)
Definition size_int (sz : Size2i) : Prop :=
  in_int (width sz) /\ in_int (height sz).

(** [sz] fits in a region of size [b]: the negation of the test of line 72. *)
Definition fits (sz : Size2i) (b : Rectanglei) : Prop :=
  width sz <= width (size b) /\ height sz <= height (size b).

Definition area (b : Rectanglei) : Z := width (size b) * height (size b).

(** The bounds a node of a space can have: an origin at or right of and
    below [(0,0)], and far edges that are still [int]s. *)
Definition rect_ok (b : Rectanglei) : Prop :=
  0 <= x (origin b) /\ 0 <= y (origin b) /\
  int_min <= width (size b) /\ int_min <= height (size b) /\
  x (origin b) + width (size b) <= int_max /\
  y (origin b) + height (size b) <= int_max.

(** The children of line 89-93 in exact arithmetic: a cut at the requested
    width when more width than height is left over, at the requested height
    otherwise. *)
Definition cut (b : Rectanglei) (sz : Size2i) : Rectanglei * Rectanglei :=
  if width (size b) - width sz >? height (size b) - height sz then
    (mkRect (origin b) (mkSize (width sz) (height (size b))),
     mkRect (mkPoint (x (origin b) + width sz) (y (origin b)))
            (mkSize (width (size b) - width sz) (height (size b))))
  else
    (mkRect (origin b) (mkSize (width (size b)) (height sz)),
     mkRect (mkPoint (x (origin b)) (y (origin b) + height sz))
            (mkSize (width (size b)) (height (size b) - height sz))).

(** [b0] and [b1] are [b] cut in two by a vertical or by a horizontal
    line. *)
Definition tiles (b b0 b1 : Rectanglei) : Prop :=
  (exists w0, 0 <= w0 <= width (size b) /\
     b0 = mkRect (origin b) (mkSize w0 (height (size b))) /\
     b1 = mkRect (mkPoint (x (origin b) + w0) (y (origin b)))
                 (mkSize (width (size b) - w0) (height (size b))))
  \/
  (exists h0, 0 <= h0 <= height (size b) /\
     b0 = mkRect (origin b) (mkSize (width (size b)) h0) /\
     b1 = mkRect (mkPoint (x (origin b)) (y (origin b) + h0))
                 (mkSize (width (size b)) (height (size b) - h0))).

(** Every point of [b] is in exactly one of [b0] and [b1], and they have no
    other point: no gap and no overlap. *)
Definition partitions (b b0 b1 : Rectanglei) : Prop :=
  forall p, (contains b p <-> contains b0 p \/ contains b1 p) /\
            ~ (contains b0 p /\ contains b1 p).

(** The tree invariant (invariants 1 and 2 of Section 3): every node has
    admissible bounds and the children of a node tile it. *)
Fixpoint wf (n : Node) : Prop :=
  match n with
  | Leaf b _ => rect_ok b
  | Branch b _ child0 child1 =>
      rect_ok b /\ tiles b (bounds child0) (bounds child1) /\
      wf child0 /\ wf child1
  end.

(** The height of the tree: 0 for a leaf. *)
Fixpoint tree_height (n : Node) : nat :=
  match n with
  | Leaf _ _ => O
  | Branch _ _ child0 child1 =>
      S (Nat.max (tree_height child0) (tree_height child1))
  end.

Fixpoint node_count (n : Node) : nat :=
  match n with
  | Leaf _ _ => 1%nat
  | Branch _ _ child0 child1 => S (node_count child0 + node_count child1)
  end.

(** The three causes of failure of Section 7, read off the tree before the
    call: a taken leaf, a leaf too small in either dimension, an internal
    node both of whose children fail. *)
Fixpoint failsb (n : Node) (sz : Size2i) : bool :=
  match n with
  | Leaf b tk =>
      tk || (width (size b) <? width sz) || (height (size b) <? height sz)
  | Branch _ _ child0 child1 => failsb child0 sz && failsb child1 sz
  end.

(** The point [p] lies in a leaf that is not taken. *)
Fixpoint free_at (n : Node) (p : Point2i) : Prop :=
  match n with
  | Leaf b tk => tk = false /\ contains b p
  | Branch _ _ child0 child1 => free_at child0 p \/ free_at child1 p
  end.

(** How many of the two dimensions of [b] differ from the request. *)
Definition slack (b : Rectanglei) (sz : Size2i) : nat :=
  (if width (size b) =? width sz then 0%nat else 1%nat) +
  (if height (size b) =? height sz then 0%nat else 1%nat).

(** Positions in the tree: [false] is [childs[0]], [true] is [childs[1]]. *)
Fixpoint subtree (n : Node) (path : list bool) : option Node :=
  match path, n with
  | [], _ => Some n
  | d :: rest, Branch _ _ child0 child1 =>
      subtree (if d then child1 else child0) rest
  | _ :: _, Leaf _ _ => None
  end.

(** The tree [n] with the leaf at [path] marked taken and nothing else
    changed. *)
Fixpoint set_taken (n : Node) (path : list bool) : Node :=
  match path, n with
  | [], Leaf b _ => Leaf b true
  | d :: rest, Branch b tk child0 child1 =>
      if d then Branch b tk child0 (set_taken child1 rest)
      else Branch b tk (set_taken child0 rest) child1
  | _, _ => n
  end.

(** The leaves of the tree in the order [insert] visits them: those under
    [childs[0]] before those under [childs[1]]. *)
Fixpoint leaves (n : Node) : list (Rectanglei * bool) :=
  match n with
  | Leaf b tk => [(b, tk)]
  | Branch _ _ child0 child1 => leaves child0 ++ leaves child1
  end.

(** A leaf can host [sz]: it passes the tests of lines 69 and 72. *)
Definition hosts (sz : Size2i) (l : Rectanglei * bool) : bool :=
  negb (snd l) &&
  negb ((width (size (fst l)) <? width sz) ||
        (height (size (fst l)) <? height sz)).

(** First fit: [sz] at the origin of the first leaf, in visiting order, that
    can host it. *)
Definition first_fit (n : Node) (sz : Size2i) : option Rectanglei :=
  option_map (fun l => mkRect (origin (fst l)) sz) (find (hosts sz) (leaves n)).

(** The bounds of the taken leaves, in visiting order. *)
Definition taken_leaves (n : Node) : list Rectanglei :=
  map fst (filter snd (leaves n)).

Fixpoint total_area (rs : list Rectanglei) : Z :=
  match rs with
  | [] => 0
  | r :: rest => area r + total_area rest
  end.

(** A tree to evaluate on: the 10 x 10 space after the one call
    [insert (4, 4)] (see [scenario_tie_splits_horizontally]). *)
Definition sample_tree : Node :=
  Branch (mkRect (mkPoint 0 0) (mkSize 10 10)) false
    (Branch (mkRect (mkPoint 0 0) (mkSize 10 4)) false
       (Leaf (mkRect (mkPoint 0 0) (mkSize 4 4)) true)
       (Leaf (mkRect (mkPoint 4 0) (mkSize 6 4)) false))
    (Leaf (mkRect (mkPoint 0 4) (mkSize 10 6)) false).

(** ** Convolution: [src/convolution.hpp]

    The two functions take iterator pairs over an input and a kernel buffer
    and return a [vector<float>].  The buffers are lists here.  The
    arithmetic is left open: [F] stands for [float], [add] for its [+=],
    [mul] for the product [kernelBegin[h] * inBegin[i]] of a kernel element
    and an input element as a [float], and [zero] for the [0.0f] a
    [vector<float>] is filled with.  Nothing is assumed of them, so what is
    proved holds for IEEE arithmetic with its rounding.

    The loop counters are C++ [int]s and the sizes [ptrdiff_t]s; buffers are
    taken to be shorter than [2^31] elements, so the counters are natural
    numbers that never wrap. *)

(** How a call ends: with a value, with the exception [std::vector]'s
    constructor throws for a size it cannot allocate (here [size_t(-1)]), or
    with an access outside a buffer, which [operator[]] does not check. *)
Inductive outcome (T : Type) : Type :=
| Ok (v : T)
| LengthError
| OutOfRange.

Arguments Ok {T} v.
Arguments LengthError {T}.
Arguments OutOfRange {T}.

(** [for (auto k = from; k < from + count; k++) body], the state threaded
    through, stopping at the first failure. *)
Fixpoint for_loop {St : Type} (body : nat -> St -> outcome St)
  (from count : nat) (s : St) : outcome St :=
  match count with
  | O => Ok s
  | S count' =>
    match body from s with
    | Ok s' => for_loop body (S from) count' s'
    | LengthError => LengthError
    | OutOfRange => OutOfRange
    end
  end.

(** [l[i] = v] for [i] inside [l]. *)
Fixpoint list_set {T : Type} (l : list T) (i : nat) (v : T) : list T :=
  match l, i with
  | [], _ => []
  | _ :: rest, O => v :: rest
  | a :: rest, S i' => a :: list_set rest i' v
  end.

Section ConvolutionCode.
Variables A B F : Type.
Variable zero : F.
Variable add : F -> F -> F.
Variable mul : B -> A -> F.

(** [output[i] += kernelBegin[h] * inBegin[j]], each access checked. *)
Definition accumulate (input : list A) (kernel : list B)
  (i h j : nat) (output : list F) : outcome (list F) :=
  match nth_error output i, nth_error kernel h, nth_error input j with
  | Some o, Some k, Some a => Ok (list_set output i (add o (mul k a)))
  | _, _, _ => OutOfRange
  end.

(** [convolve], lines 18-34 (output-side algorithm). *)
Definition convolve (input : list A) (kernel : list B)
  : outcome (list F) :=
  let inputSize := Z.of_nat (length input) in
  let kernelSize := Z.of_nat (length kernel) in
  let size := inputSize + kernelSize - 1 in
  if size <? 0 then LengthError
  else
    for_loop
      (fun i output =>
         for_loop
           (fun h output =>
              if Z.of_nat i - Z.of_nat h <? 0 then Ok output
              else if Z.of_nat i - Z.of_nat h >=? inputSize then Ok output
              else accumulate input kernel i h
                     (Z.to_nat (Z.of_nat i - Z.of_nat h)) output)
           0 (Z.to_nat kernelSize) output)
      0 (Z.to_nat size) (repeat zero (Z.to_nat size)).

(** [convolveInputSide], lines 38-50 (input-side algorithm). *)
Definition convolveInputSide (input : list A) (kernel : list B)
  : outcome (list F) :=
  let inputSize := Z.of_nat (length input) in
  let kernelSize := Z.of_nat (length kernel) in
  let size := inputSize + kernelSize - 1 in
  if size <? 0 then LengthError
  else
    for_loop
      (fun i output =>
         for_loop
           (fun h output => accumulate input kernel (i + h) h i output)
           0 (Z.to_nat kernelSize) output)
      0 (Z.to_nat inputSize) (repeat zero (Z.to_nat size)).

(** The product that [h] contributes to output sample [i] on the output
    side, if any: the kernel element [h] times the input element
    [i - h]. *)
Definition term_out (input : list A) (kernel : list B) (i h : nat)
  : list F :=
  if (h <=? i)%nat && (i - h <? length input)%nat then
    match nth_error kernel h, nth_error input (i - h) with
    | Some k, Some a => [mul k a]
    | _, _ => []
    end
  else [].

(** The product that input element [i] contributes to output sample [j] on
    the input side, if any: the kernel element [j - i] times the input
    element [i]. *)
Definition term_in (input : list A) (kernel : list B) (j i : nat)
  : list F :=
  if (i <=? j)%nat && (j - i <? length kernel)%nat then
    match nth_error kernel (j - i), nth_error input i with
    | Some k, Some a => [mul k a]
    | _, _ => []
    end
  else [].
End ConvolutionCode.

Arguments accumulate {A B F} add mul input kernel i h j output.
Arguments convolve {A B F} zero add mul input kernel.
Arguments convolveInputSide {A B F} zero add mul input kernel.
Arguments term_out {A B F} mul input kernel i h.
Arguments term_in {A B F} mul input kernel j i.

(** ** Arithmetic *)

Lemma wrap_id (z : Z) : in_int z -> wrap z = z.
Proof.
  unfold in_int, int_min, int_max, wrap. intros Hz.
  rewrite Z.mod_small; lia.
Qed.

Lemma size_eqb_eq (a b : Size2i) : size_eqb a b = true <-> a = b.
Proof.
  unfold size_eqb. destruct a as [wa ha], b as [wb hb]; simpl.
  rewrite andb_true_iff, !Z.eqb_eq. split.
  - intros [-> ->]; reflexivity.
  - intros E; inversion E; auto.
Qed.

Lemma size_eqb_neq (a b : Size2i) : size_eqb a b = false <-> a <> b.
Proof.
  rewrite <- size_eqb_eq. destruct (size_eqb a b); split; congruence.
Qed.

Lemma overlapb_false_disjoint (a b : Rectanglei) :
  overlapb a b = false -> rect_disjoint a b.
Proof.
  unfold overlapb, rect_disjoint, contains. intros H p [Ha Hb].
  apply andb_false_iff in H. rewrite !Z.ltb_ge in H. lia.
Qed.

Lemma overlapb_true_shared (a b : Rectanglei) :
  overlapb a b = true -> ~ rect_disjoint a b.
Proof.
  unfold overlapb, rect_disjoint, contains. intros H D.
  apply andb_true_iff in H. rewrite !Z.ltb_lt in H.
  apply (D (mkPoint (Z.max (x (origin a)) (x (origin b)))
                    (Z.max (y (origin a)) (y (origin b))))).
  simpl. lia.
Qed.

(** ** The split *)

Lemma split_cut (b : Rectanglei) (sz : Size2i) :
  rect_ok b -> nonneg sz -> fits sz b ->
  split b sz = (Leaf (fst (cut b sz)) false, Leaf (snd (cut b sz)) false).
Proof.
  unfold rect_ok, nonneg, fits, split, cut, int_sub, int_add.
  intros Hb Hs Hf.
  assert (Hi : forall z, int_min <= z <= int_max -> wrap z = z)
    by (intros; apply wrap_id; assumption).
  unfold int_min, int_max in *.
  rewrite (Hi (width (size b) - width sz)) by lia.
  rewrite (Hi (height (size b) - height sz)) by lia.
  rewrite (Hi (x (origin b) + width sz)) by lia.
  rewrite (Hi (y (origin b) + height sz)) by lia.
  rewrite (Hi (width (size b) - (width (size b) - width sz))) by lia.
  rewrite (Hi (height (size b) - (height (size b) - height sz))) by lia.
  replace (width (size b) - (width (size b) - width sz)) with (width sz) by lia.
  replace (height (size b) - (height (size b) - height sz)) with (height sz)
    by lia.
  destruct (width (size b) - width sz >? height (size b) - height sz);
    reflexivity.
Qed.

Lemma cut_tiles (b : Rectanglei) (sz : Size2i) :
  nonneg sz -> fits sz b -> tiles b (fst (cut b sz)) (snd (cut b sz)).
Proof.
  unfold nonneg, fits, tiles, cut. intros Hs Hf.
  destruct (width (size b) - width sz >? height (size b) - height sz); simpl.
  - left. exists (width sz). repeat split; lia.
  - right. exists (height sz). repeat split; lia.
Qed.

Lemma cut_ok (b : Rectanglei) (sz : Size2i) :
  rect_ok b -> nonneg sz -> fits sz b ->
  rect_ok (fst (cut b sz)) /\ rect_ok (snd (cut b sz)).
Proof.
  unfold rect_ok, nonneg, fits, cut, int_min, int_max. intros Hb Hs Hf.
  destruct (width (size b) - width sz >? height (size b) - height sz);
    simpl; lia.
Qed.

Lemma cut_fits (b : Rectanglei) (sz : Size2i) :
  fits sz b -> fits sz (fst (cut b sz)).
Proof.
  unfold fits, cut. intros Hf.
  destruct (width (size b) - width sz >? height (size b) - height sz);
    simpl; lia.
Qed.

Lemma cut_slack (b : Rectanglei) (sz : Size2i) :
  fits sz b -> size b <> sz ->
  S (slack (fst (cut b sz)) sz) = slack b sz.
Proof.
  unfold fits, cut, slack. intros Hf Hne.
  assert (Hd : width (size b) <> width sz \/ height (size b) <> height sz).
  { destruct (Z.eq_dec (width (size b)) (width sz)) as [Ew|]; [|auto].
    destruct (Z.eq_dec (height (size b)) (height sz)) as [Eh|]; [|auto].
    exfalso; apply Hne. destruct (size b), sz; simpl in *; congruence. }
  destruct (Z.gtb_spec (width (size b) - width sz)
                       (height (size b) - height sz)); simpl;
    rewrite ?Z.eqb_refl;
    destruct (Z.eqb_spec (width (size b)) (width sz));
    destruct (Z.eqb_spec (height (size b)) (height sz));
    simpl; try reflexivity; lia.
Qed.

(** ** Rectangles that tile *)

Lemma rect_within_refl (r : Rectanglei) : rect_within r r.
Proof. unfold rect_within; lia. Qed.

Lemma rect_within_trans (a b c : Rectanglei) :
  rect_within a b -> rect_within b c -> rect_within a c.
Proof. unfold rect_within; lia. Qed.

Lemma rect_within_contains (r outer : Rectanglei) (p : Point2i) :
  rect_within r outer -> contains r p -> contains outer p.
Proof. unfold rect_within, contains; lia. Qed.

Lemma tiles_within (b b0 b1 : Rectanglei) :
  tiles b b0 b1 -> rect_within b0 b /\ rect_within b1 b.
Proof.
  unfold tiles, rect_within.
  intros [(w0 & Hw & -> & ->) | (h0 & Hh & -> & ->)]; simpl; lia.
Qed.

Lemma tiles_partitions (b b0 b1 : Rectanglei) :
  tiles b b0 b1 -> partitions b b0 b1.
Proof.
  unfold tiles, partitions, contains.
  intros [(w0 & Hw & -> & ->) | (h0 & Hh & -> & ->)] p; simpl; lia.
Qed.

Lemma tiles_disjoint (b b0 b1 : Rectanglei) :
  tiles b b0 b1 -> rect_disjoint b0 b1.
Proof.
  intros H p. apply (tiles_partitions _ _ _ H p).
Qed.

Lemma free_at_bounds (n : Node) (p : Point2i) :
  wf n -> free_at n p -> contains (bounds n) p.
Proof.
  induction n as [b tk | b tk c0 IH0 c1 IH1]; simpl.
  - intros _ [_ H]; exact H.
  - intros (_ & Ht & W0 & W1) [H | H];
      destruct (tiles_within _ _ _ Ht) as [T0 T1].
    + eapply rect_within_contains; [exact T0 | auto].
    + eapply rect_within_contains; [exact T1 | auto].
Qed.

(** ** What one call does *)

Lemma not_small_fits (b : Rectanglei) (sz : Size2i) :
  (width (size b) <? width sz) || (height (size b) <? height sz) = false ->
  fits sz b.
Proof.
  unfold fits. intros H. apply orb_false_iff in H.
  rewrite !Z.ltb_ge in H. exact H.
Qed.

Lemma fits_not_small (b : Rectanglei) (sz : Size2i) :
  fits sz b ->
  (width (size b) <? width sz) || (height (size b) <? height sz) = false.
Proof.
  unfold fits. intros H. apply orb_false_iff. rewrite !Z.ltb_ge. exact H.
Qed.

(** A call on a node that fails by the three causes returns no placement and
    leaves the node as it was, whatever the request. *)
Lemma fails_insert (n : Node) (sz : Size2i) :
  failsb n sz = true ->
  forall fuel, (tree_height n < fuel)%nat ->
  Node_insert fuel n sz = Some (None, n).
Proof.
  induction n as [b tk | b tk c0 IH0 c1 IH1]; simpl; intros Hf fuel Hfuel.
  - destruct fuel as [|fuel]; [lia|]. simpl.
    destruct tk; [reflexivity|]. simpl in Hf. rewrite Hf. reflexivity.
  - destruct fuel as [|fuel]; [lia|]. simpl.
    apply andb_true_iff in Hf. destruct Hf as [F0 F1].
    rewrite (IH0 F0) by lia. rewrite (IH1 F1) by lia. reflexivity.
Qed.

(** The effect of a call that returns, on a well-formed tree and for a
    non-negative request: the invariant is kept; a failing call changes
    nothing and has one of the three causes; a successful call has none of
    them, returns a rectangle of the requested size inside the node, made of
    points that were free before the call and are free no more after it. *)
Lemma Node_insert_sound (fuel : nat) :
  forall (n : Node) (sz : Size2i) (res : option Rectanglei) (n' : Node),
  wf n -> nonneg sz ->
  Node_insert fuel n sz = Some (res, n') ->
  wf n' /\ bounds n' = bounds n /\
  match res with
  | None => n' = n /\ failsb n sz = true
  | Some r =>
      failsb n sz = false /\ size r = sz /\ rect_within r (bounds n) /\
      (forall p, contains r p -> free_at n p) /\
      (forall p, free_at n' p -> free_at n p /\ ~ contains r p)
  end.
Proof.
  induction fuel as [|fuel IH]; intros n sz res n' Hwf Hs H;
    [discriminate|].
  destruct n as [b tk | b tk c0 c1]; simpl in H.
  - (* a leaf *)
    destruct tk.
    { inversion H; subst; simpl; auto. }
    destruct ((width (size b) <? width sz) || (height (size b) <? height sz))
      eqn:Esmall.
    { inversion H; subst; simpl; auto. }
    pose proof (not_small_fits _ _ Esmall) as Hfit.
    destruct (size_eqb (size b) sz) eqn:Eeq.
    { inversion H; subst; simpl. apply size_eqb_eq in Eeq.
      split; [exact Hwf|]. split; [reflexivity|]. split; [exact Esmall|].
      split; [exact Eeq|]. split; [apply rect_within_refl|].
      split; [intros p Hp; split; [reflexivity | exact Hp]|].
      intros p [Hp _]; discriminate. }
    simpl in Hwf.
    rewrite (split_cut _ _ Hwf Hs Hfit) in H.
    destruct (Node_insert fuel (Leaf (fst (cut b sz)) false) sz)
      as [[r c0']|] eqn:Hc; [|discriminate].
    inversion H; subst; clear H.
    destruct (cut_ok _ _ Hwf Hs Hfit) as [Hok0 Hok1].
    pose proof (cut_tiles b sz Hs Hfit) as Ht.
    destruct (IH (Leaf (fst (cut b sz)) false) sz _ _ Hok0 Hs Hc)
      as (W' & B' & R).
    simpl in B'.
    destruct res as [r|].
    + destruct R as (_ & Rsz & Rin & Rsub & Rmono).
      destruct (tiles_within _ _ _ Ht) as [T0 T1].
      assert (Hrb : forall p, contains r p -> contains b p).
      { intros p Hp. eapply rect_within_contains; [exact T0|].
        eapply rect_within_contains; [exact Rin | exact Hp]. }
      simpl. rewrite B'.
      split; [auto|]. split; [reflexivity|]. split; [exact Esmall|].
      split; [exact Rsz|].
      split; [eapply rect_within_trans; eauto|].
      split; [intros p Hp; split; [reflexivity | auto]|].
      intros p [H | [_ H]].
      * apply Rmono in H. destruct H as [[_ H] Hn]. split; [split|]; auto.
        eapply rect_within_contains; [exact T0 | exact H].
      * split; [split; [reflexivity|]|].
        -- eapply rect_within_contains; [exact T1 | exact H].
        -- intros Hr. apply (tiles_disjoint _ _ _ Ht p). split; [|exact H].
           eapply rect_within_contains; [exact Rin | exact Hr].
    + destruct R as [_ R]. simpl in R.
      rewrite (fits_not_small _ _ (cut_fits _ _ Hfit)) in R. discriminate.
  - (* an internal node *)
    simpl in Hwf. destruct Hwf as (Hb & Ht & W0 & W1).
    destruct (tiles_within _ _ _ Ht) as [T0 T1].
    destruct (Node_insert fuel c0 sz) as [[[r|] c0']|] eqn:H0;
      [ | | discriminate].
    + inversion H; subst; clear H.
      destruct (IH _ _ _ _ W0 Hs H0)
        as (W' & B' & F & Rsz & Rin & Rsub & Rmono).
      simpl. rewrite B', F.
      split; [auto|]. split; [reflexivity|]. split; [reflexivity|].
      split; [exact Rsz|].
      split; [eapply rect_within_trans; eauto|].
      split; [intros p Hp; left; auto|].
      intros p [H | H].
      * apply Rmono in H. tauto.
      * split; [right; exact H|].
        intros Hr. apply (tiles_disjoint _ _ _ Ht p). split.
        -- eapply rect_within_contains; [exact Rin | exact Hr].
        -- apply free_at_bounds; assumption.
    + destruct (IH _ _ _ _ W0 Hs H0) as (_ & _ & -> & F0).
      destruct (Node_insert fuel c1 sz) as [[res1 c1']|] eqn:H1;
        [|discriminate].
      inversion H; subst; clear H.
      destruct (IH _ _ _ _ W1 Hs H1) as (W' & B' & R).
      destruct res as [r|].
      * destruct R as (F & Rsz & Rin & Rsub & Rmono).
        simpl. rewrite B', F, andb_false_r.
        split; [auto|]. split; [reflexivity|]. split; [reflexivity|].
        split; [exact Rsz|].
        split; [eapply rect_within_trans; eauto|].
        split; [intros p Hp; right; auto|].
        intros p [H | H].
        -- split; [left; exact H|].
           intros Hr. apply (tiles_disjoint _ _ _ Ht p). split.
           ++ apply free_at_bounds; assumption.
           ++ eapply rect_within_contains; [exact Rin | exact Hr].
        -- apply Rmono in H. tauto.
      * destruct R as [-> F1]. simpl. rewrite F0, F1. auto.
Qed.

(** ** Termination and depth *)

Lemma slack_le_2 (b : Rectanglei) (sz : Size2i) : (slack b sz <= 2)%nat.
Proof.
  unfold slack.
  destruct (width (size b) =? width sz), (height (size b) =? height sz);
    simpl; lia.
Qed.

(** On a leaf the recursion of line 96 goes through at most [slack] splits:
    each split makes one more dimension of the first child equal to the
    request. *)
Lemma leaf_insert_total (fuel : nat) :
  forall (b : Rectanglei) (tk : bool) (sz : Size2i),
  rect_ok b -> nonneg sz -> (slack b sz < fuel)%nat ->
  Node_insert fuel (Leaf b tk) sz <> None.
Proof.
  induction fuel as [|fuel IH]; intros b tk sz Hb Hs Hfuel; [lia|].
  simpl. destruct tk; [discriminate|].
  destruct ((width (size b) <? width sz) || (height (size b) <? height sz))
    eqn:Esmall; [discriminate|].
  pose proof (not_small_fits _ _ Esmall) as Hfit.
  destruct (size_eqb (size b) sz) eqn:Eeq; [discriminate|].
  apply size_eqb_neq in Eeq.
  rewrite (split_cut _ _ Hb Hs Hfit).
  pose proof (cut_slack _ _ Hfit Eeq) as Hsl.
  destruct (cut_ok _ _ Hb Hs Hfit) as [Hok0 _].
  destruct (Node_insert fuel (Leaf (fst (cut b sz)) false) sz)
    as [[res c0']|] eqn:Hc; [discriminate|].
  exfalso. apply (IH (fst (cut b sz)) false sz Hok0 Hs); [lia | exact Hc].
Qed.

Lemma leaf_insert_height (fuel : nat) :
  forall (b : Rectanglei) (tk : bool) (sz : Size2i) res n',
  rect_ok b -> nonneg sz ->
  Node_insert fuel (Leaf b tk) sz = Some (res, n') ->
  (tree_height n' <= slack b sz)%nat.
Proof.
  induction fuel as [|fuel IH]; intros b tk sz res n' Hb Hs H;
    [discriminate|].
  simpl in H. destruct tk; [inversion H; simpl; lia|].
  destruct ((width (size b) <? width sz) || (height (size b) <? height sz))
    eqn:Esmall; [inversion H; simpl; lia|].
  pose proof (not_small_fits _ _ Esmall) as Hfit.
  destruct (size_eqb (size b) sz) eqn:Eeq; [inversion H; simpl; lia|].
  apply size_eqb_neq in Eeq.
  rewrite (split_cut _ _ Hb Hs Hfit) in H.
  pose proof (cut_slack _ _ Hfit Eeq) as Hsl.
  destruct (cut_ok _ _ Hb Hs Hfit) as [Hok0 _].
  destruct (Node_insert fuel (Leaf (fst (cut b sz)) false) sz)
    as [[res0 c0']|] eqn:Hc; [|discriminate].
  inversion H; subst; clear H.
  pose proof (IH _ _ _ _ _ Hok0 Hs Hc) as Hh.
  simpl. lia.
Qed.

(** A call returns once it may nest three activations deeper than the tree is
    high. *)
Lemma Node_insert_total (n : Node) (sz : Size2i) :
  wf n -> nonneg sz ->
  forall fuel, (tree_height n + 3 <= fuel)%nat ->
  Node_insert fuel n sz <> None.
Proof.
  intros Hwf Hs.
  induction n as [b tk | b tk c0 IH0 c1 IH1]; intros fuel Hfuel.
  - apply leaf_insert_total; auto.
    pose proof (slack_le_2 b sz). simpl in Hfuel. lia.
  - simpl in Hwf. destruct Hwf as (_ & _ & W0 & W1).
    simpl in Hfuel. destruct fuel as [|fuel]; [lia|]. simpl.
    destruct (Node_insert fuel c0 sz) as [[[r|] c0']|] eqn:H0.
    + discriminate.
    + destruct (Node_insert fuel c1 sz) as [[res1 c1']|] eqn:H1;
        [discriminate|].
      exfalso. apply (IH1 W1 fuel); [lia | exact H1].
    + exfalso. apply (IH0 W0 fuel); [lia | exact H0].
Qed.

(** A call makes the tree at most two levels higher. *)
Lemma Node_insert_height (n : Node) (sz : Size2i) :
  wf n -> nonneg sz ->
  forall fuel res n', Node_insert fuel n sz = Some (res, n') ->
  (tree_height n' <= tree_height n + 2)%nat.
Proof.
  intros Hwf Hs.
  induction n as [b tk | b tk c0 IH0 c1 IH1]; intros fuel res n' H.
  - pose proof (leaf_insert_height _ _ _ _ _ _ Hwf Hs H).
    pose proof (slack_le_2 b sz). simpl. lia.
  - simpl in Hwf. destruct Hwf as (_ & _ & W0 & W1).
    destruct fuel as [|fuel]; [discriminate|]. simpl in H.
    destruct (Node_insert fuel c0 sz) as [[[r|] c0']|] eqn:H0;
      [ | | discriminate].
    + inversion H; subst; clear H.
      pose proof (IH0 W0 _ _ _ H0). simpl. lia.
    + destruct (Node_insert fuel c1 sz) as [[res1 c1']|] eqn:H1;
        [|discriminate].
      inversion H; subst; clear H.
      pose proof (IH0 W0 _ _ _ H0). pose proof (IH1 W1 _ _ _ H1).
      simpl. lia.
Qed.

(** A request wider or taller than a node has one of the three causes of
    failure there. *)
Lemma oversize_failsb (n : Node) (sz : Size2i) :
  wf n ->
  width (size (bounds n)) < width sz \/ height (size (bounds n)) < height sz ->
  failsb n sz = true.
Proof.
  induction n as [b tk | b tk c0 IH0 c1 IH1]; simpl; intros Hwf Hbig.
  - destruct tk; [reflexivity|]. simpl.
    apply orb_true_iff. rewrite !Z.ltb_lt. exact Hbig.
  - destruct Hwf as (_ & Ht & W0 & W1).
    destruct (tiles_within _ _ _ Ht) as [T0 T1].
    unfold rect_within in T0, T1.
    rewrite IH0, IH1; auto; lia.
Qed.

(** ** Sequences of calls *)

Lemma new_wf (sz : Size2i) : size_int sz -> wf (root (BinPackingSpace_new sz)).
Proof.
  unfold size_int, in_int, int_min, int_max. intros [Hw Hh].
  simpl. unfold rect_ok, int_min, int_max. simpl. lia.
Qed.

Lemma Space_insert_inv fuel sp sz res sp' :
  BinPackingSpace_insert fuel sp sz = Some (res, sp') ->
  Node_insert fuel (root sp) sz = Some (res, root sp').
Proof.
  unfold BinPackingSpace_insert.
  destruct (Node_insert fuel (root sp) sz) as [[r n']|]; [|discriminate].
  intros H; inversion H; reflexivity.
Qed.

(** What a run of calls keeps and what its placements are: the tree stays
    well-formed inside the same bounds and grows by at most two levels per
    placement; every placement is inside the bounds and made of points that
    were free when the run started; placements are pairwise disjoint; no
    point becomes free again. *)
Lemma run_invariant (requests : list Size2i) :
  forall fuel sp results sp',
  wf (root sp) -> Forall nonneg requests ->
  run fuel sp requests = Some (results, sp') ->
  wf (root sp') /\
  bounds (root sp') = bounds (root sp) /\
  (tree_height (root sp')
   <= tree_height (root sp) + 2 * length (placements results))%nat /\
  Forall (fun r => rect_within r (bounds (root sp)) /\
                   forall p, contains r p -> free_at (root sp) p)
         (placements results) /\
  ForallOrdPairs rect_disjoint (placements results) /\
  (forall p, free_at (root sp') p -> free_at (root sp) p).
Proof.
  induction requests as [|sz rest IH]; intros fuel sp results sp' Hwf Hnn H.
  - inversion H; subst; simpl.
    repeat (split; [first [assumption | reflexivity | lia | constructor]|]).
    auto.
  - simpl in H. inversion Hnn as [|? ? Hs Hrest]; subst.
    destruct (BinPackingSpace_insert fuel sp sz) as [[res sp1]|] eqn:H1;
      [|discriminate].
    destruct (run fuel sp1 rest) as [[results1 sp2]|] eqn:H2; [|discriminate].
    inversion H; subst; clear H.
    apply Space_insert_inv in H1.
    pose proof (Node_insert_height _ _ Hwf Hs _ _ _ H1) as Hh.
    destruct (Node_insert_sound _ _ _ _ _ Hwf Hs H1) as (W1 & B1 & R).
    destruct (IH _ _ _ _ W1 Hrest H2) as (W2 & B2 & Hh2 & Fin & Fdis & Fmono).
    rewrite B1 in *.
    destruct res as [r|]; simpl.
    + destruct R as (_ & _ & Rin & Rsub & Rmono).
      split; [exact W2|]. split; [exact B2|]. split; [lia|].
      split; [|split].
      * constructor; [split; assumption|].
        eapply Forall_impl; [|exact Fin].
        intros r' [Hin Hsub]. split; [exact Hin|].
        intros p Hp. apply Rmono. auto.
      * constructor; [|exact Fdis].
        eapply Forall_impl; [|exact Fin].
        intros r' [_ Hsub] p [Hr Hr'].
        apply Hsub, Rmono in Hr'. tauto.
      * intros p Hp. apply Fmono, Rmono in Hp. tauto.
    + destruct R as [E _]. rewrite E in *.
      split; [exact W2|]. split; [exact B2|]. split; [lia|]. auto.
Qed.

Lemma run_total (requests : list Size2i) :
  forall fuel sp,
  wf (root sp) -> Forall nonneg requests ->
  (tree_height (root sp) + 2 * length requests + 3 <= fuel)%nat ->
  run fuel sp requests <> None.
Proof.
  induction requests as [|sz rest IH]; intros fuel sp Hwf Hnn Hfuel.
  - discriminate.
  - simpl in *. inversion Hnn as [|? ? Hs Hrest]; subst.
    unfold BinPackingSpace_insert.
    destruct (Node_insert fuel (root sp) sz) as [[res n1]|] eqn:H1.
    + pose proof (Node_insert_height _ _ Hwf Hs _ _ _ H1) as Hh.
      destruct (Node_insert_sound _ _ _ _ _ Hwf Hs H1) as (W1 & _).
      destruct (run fuel (mkSpace n1) rest) as [[results1 sp2]|] eqn:H2;
        [discriminate|].
      exfalso. apply (IH fuel (mkSpace n1)); simpl; auto. lia.
    + exfalso. apply (Node_insert_total _ _ Hwf Hs fuel); [lia | exact H1].
Qed.

Lemma run_length (requests : list Size2i) :
  forall fuel sp results sp',
  run fuel sp requests = Some (results, sp') ->
  length results = length requests.
Proof.
  induction requests as [|sz rest IH]; intros fuel sp results sp' H;
    simpl in H.
  - inversion H; reflexivity.
  - destruct (BinPackingSpace_insert fuel sp sz) as [[res sp1]|];
      [|discriminate].
    destruct (run fuel sp1 rest) as [[results1 sp2]|] eqn:H2; [|discriminate].
    inversion H; subst. simpl. f_equal. eapply IH; eauto.
Qed.

Lemma placements_length (results : list (option Rectanglei)) :
  (length (placements results) <= length results)%nat.
Proof.
  induction results as [|[r|] rest IH]; simpl; lia.
Qed.

Lemma placements_In (results : list (option Rectanglei)) (r : Rectanglei) :
  In (Some r) results <-> In r (placements results).
Proof.
  induction results as [|[r'|] rest IH]; simpl.
  - tauto.
  - rewrite <- IH. split; intros [H | H]; auto; left; congruence.
  - rewrite <- IH. split; [intros [H | H]; [discriminate | auto] | auto].
Qed.

Lemma placements_ordered (R : Rectanglei -> Rectanglei -> Prop)
  (results : list (option Rectanglei)) :
  ForallOrdPairs R (placements results) ->
  forall i j ri rj, (i < j)%nat ->
  nth_error results i = Some (Some ri) ->
  nth_error results j = Some (Some rj) ->
  R ri rj.
Proof.
  induction results as [|a rest IH]; intros Hp i j ri rj Hij Hi Hj.
  - destruct i; discriminate.
  - destruct j as [|j]; [lia|]. simpl in Hj.
    destruct i as [|i]; simpl in Hi.
    + inversion Hi; subst. simpl in Hp.
      inversion Hp as [|? ? Hall Hrest]; subst.
      rewrite Forall_forall in Hall. apply Hall.
      apply placements_In. eapply nth_error_In; eauto.
    + apply (IH) with (i := i) (j := j); auto; [|lia].
      destruct a; simpl in Hp; [|exact Hp].
      inversion Hp; assumption.
Qed.

Lemma rect_disjoint_sym (a b : Rectanglei) :
  rect_disjoint a b -> rect_disjoint b a.
Proof. unfold rect_disjoint. intros H p [Hb Ha]. apply (H p); auto. Qed.

(** The requested size comes back, whatever the tree and the request. *)
Lemma Node_insert_size (fuel : nat) :
  forall n sz r n', Node_insert fuel n sz = Some (Some r, n') -> size r = sz.
Proof.
  induction fuel as [|fuel IH]; intros n sz r n' H; [discriminate|].
  destruct n as [b tk | b tk c0 c1]; simpl in H.
  - destruct tk; [discriminate|].
    destruct ((width (size b) <? width sz) || (height (size b) <? height sz));
      [discriminate|].
    destruct (size_eqb (size b) sz) eqn:Eeq.
    + inversion H; subst. apply size_eqb_eq; assumption.
    + destruct (split b sz) as [child0 child1].
      destruct (Node_insert fuel child0 sz) as [[res c0']|] eqn:Hc;
        [|discriminate].
      inversion H; subst. eapply IH; eauto.
  - destruct (Node_insert fuel c0 sz) as [[[r0|] c0']|] eqn:H0;
      [ | | discriminate].
    + inversion H; subst. eapply IH; eauto.
    + destruct (Node_insert fuel c1 sz) as [[res1 c1']|] eqn:H1;
        [|discriminate].
      inversion H; subst. eapply IH; eauto.
Qed.

(** ** The scenarios of Section 8 *)

(** A 10 x 10 space takes a 10 x 10 request whole and has no room left. *)
Example scenario_exact_fit :
  option_map fst
    (run 3 (BinPackingSpace_new (mkSize 10 10)) [mkSize 10 10; mkSize 1 1])
  = Some [Some (mkRect (mkPoint 0 0) (mkSize 10 10)); None].
Proof. reflexivity. Qed.

(** 4 x 10 then 6 x 10: the first split is vertical (leftover width 6,
    leftover height 0), the second request takes the right part whole. *)
Example scenario_vertical_split :
  option_map fst
    (run 3 (BinPackingSpace_new (mkSize 10 10))
         [mkSize 4 10; mkSize 6 10; mkSize 1 1])
  = Some [Some (mkRect (mkPoint 0 0) (mkSize 4 10));
          Some (mkRect (mkPoint 4 0) (mkSize 6 10));
          None].
Proof. reflexivity. Qed.

(** Equal leftovers split horizontally: 4 x 4 in 10 x 10 cuts off the rows
    [0 .. 3] first, then the columns [0 .. 3] of those rows. *)
Example scenario_tie_splits_horizontally :
  option_map snd
    (run 3 (BinPackingSpace_new (mkSize 10 10)) [mkSize 4 4])
  = Some (mkSpace
            (Branch (mkRect (mkPoint 0 0) (mkSize 10 10)) false
               (Branch (mkRect (mkPoint 0 0) (mkSize 10 4)) false
                  (Leaf (mkRect (mkPoint 0 0) (mkSize 4 4)) true)
                  (Leaf (mkRect (mkPoint 4 0) (mkSize 6 4)) false))
               (Leaf (mkRect (mkPoint 0 4) (mkSize 10 6)) false))).
Proof. reflexivity. Qed.

(** The bound [2 * k + 3] on the depth of a call is reached: after the one
    placement of 4 x 4, the call for 1 x 1 needs five nested activations. *)
Example depth_bound_is_reached :
  run 4 (BinPackingSpace_new (mkSize 10 10)) [mkSize 4 4; mkSize 1 1] = None /\
  option_map fst
    (run 5 (BinPackingSpace_new (mkSize 10 10)) [mkSize 4 4; mkSize 1 1])
  = Some [Some (mkRect (mkPoint 0 0) (mkSize 4 4));
          Some (mkRect (mkPoint 4 0) (mkSize 1 1))].
Proof. split; reflexivity. Qed.

(** Outside the contract of Section 4.1: a request of negative width moves
    the second child of a split to the left of its parent, and a later
    placement there overlaps an earlier one.  The non-negativity of requests
    assumed below is needed. *)
Example negative_request_overlaps :
  option_map fst
    (run 3 (BinPackingSpace_new (mkSize 10 10))
         [mkSize 4 10; mkSize (-1) 10; mkSize 7 10])
  = Some [Some (mkRect (mkPoint 0 0) (mkSize 4 10));
          Some (mkRect (mkPoint 4 0) (mkSize (-1) 10));
          Some (mkRect (mkPoint 3 0) (mkSize 7 10))] /\
  ~ rect_disjoint (mkRect (mkPoint 0 0) (mkSize 4 10))
                  (mkRect (mkPoint 3 0) (mkSize 7 10)).
Proof.
  split; [reflexivity|]. apply overlapb_true_shared. reflexivity.
Qed.

(** Two free leaves of one size: after 5 x 0 in a 10 x 4 space the leaves at
    [(0,0)] and at [(5,0)] are both free and 5 x 4.  A request for 5 x 4
    takes the one the search reaches first and splits nothing. *)
Example equal_leaves_first_in_search_order :
  run 3 (BinPackingSpace_new (mkSize 10 4)) [mkSize 5 0; mkSize 5 4]
  = Some ([Some (mkRect (mkPoint 0 0) (mkSize 5 0));
           Some (mkRect (mkPoint 0 0) (mkSize 5 4))],
          mkSpace
            (Branch (mkRect (mkPoint 0 0) (mkSize 10 4)) false
               (Branch (mkRect (mkPoint 0 0) (mkSize 5 4)) false
                  (Leaf (mkRect (mkPoint 0 0) (mkSize 5 0)) true)
                  (Leaf (mkRect (mkPoint 0 0) (mkSize 5 4)) true))
               (Leaf (mkRect (mkPoint 5 0) (mkSize 5 4)) false))).
Proof. reflexivity. Qed.

(** ** The properties of the specification *)

(** C1 (no overlap, monotonic occupancy).  Take a space of any [int] size
    and any sequence of [insert] calls with non-negative sizes, as Section
    4.1 requires of a request.  The calls all return, and the rectangles
    returned by any two different successful calls share no point; so once a
    call has placed a rectangle, no later call returns one that overlaps
    it. *)
Theorem insert_placements_disjoint
  (sz : Size2i) (requests : list Size2i) (fuel : nat) :
  size_int sz -> Forall nonneg requests ->
  (2 * length requests + 3 <= fuel)%nat ->
  exists results sp',
    run fuel (BinPackingSpace_new sz) requests = Some (results, sp') /\
    forall i j ri rj, i <> j ->
      nth_error results i = Some (Some ri) ->
      nth_error results j = Some (Some rj) ->
      rect_disjoint ri rj.
Proof.
  intros Hsz Hnn Hfuel.
  pose proof (new_wf sz Hsz) as Hwf.
  destruct (run fuel (BinPackingSpace_new sz) requests)
    as [[results sp']|] eqn:Hrun.
  - exists results, sp'. split; [reflexivity|].
    destruct (run_invariant _ _ _ _ _ Hwf Hnn Hrun)
      as (_ & _ & _ & _ & Hdis & _).
    intros i j ri rj Hij Hi Hj.
    destruct (Nat.lt_total i j) as [Hlt | [Heq | Hgt]]; [ | contradiction | ].
    + eapply placements_ordered; eauto.
    + apply rect_disjoint_sym. eapply placements_ordered; eauto.
  - exfalso. apply (run_total requests fuel _ Hwf Hnn); [simpl; lia | exact Hrun].
Qed.

Lemma insert_placements_disjoint_witness :
  size_int (mkSize 10 10) /\
  Forall nonneg [mkSize 4 4; mkSize 7 3; mkSize 6 6; mkSize 1 1] /\
  (2 * length [mkSize 4 4; mkSize 7 3; mkSize 6 6; mkSize 1 1] + 3 <= 11)%nat /\
  exists results sp',
    run 11 (BinPackingSpace_new (mkSize 10 10))
        [mkSize 4 4; mkSize 7 3; mkSize 6 6; mkSize 1 1]
    = Some (results, sp') /\
    forall i j ri rj, i <> j ->
      nth_error results i = Some (Some ri) ->
      nth_error results j = Some (Some rj) ->
      rect_disjoint ri rj.
Proof.
  assert (H1 : size_int (mkSize 10 10))
    by (unfold size_int, in_int, int_min, int_max; simpl; lia).
  assert (H2 : Forall nonneg [mkSize 4 4; mkSize 7 3; mkSize 6 6; mkSize 1 1])
    by (repeat constructor; simpl; lia).
  assert (H3 : (2 * length [mkSize 4 4; mkSize 7 3; mkSize 6 6; mkSize 1 1]
                + 3 <= 11)%nat) by (simpl; lia).
  split; [exact H1|]. split; [exact H2|]. split; [exact H3|].
  exact (insert_placements_disjoint _ _ _ H1 H2 H3).
Defined.

(** C2 (containment).  In the same setting, every rectangle a call returns
    lies entirely within the bounds of the space: origin [(0,0)] and the size
    given at construction. *)
Theorem insert_placements_within
  (sz : Size2i) (requests : list Size2i) (fuel : nat) :
  size_int sz -> Forall nonneg requests ->
  (2 * length requests + 3 <= fuel)%nat ->
  exists results sp',
    run fuel (BinPackingSpace_new sz) requests = Some (results, sp') /\
    forall r, In (Some r) results -> rect_within r (rect_of_size sz).
Proof.
  intros Hsz Hnn Hfuel.
  pose proof (new_wf sz Hsz) as Hwf.
  destruct (run fuel (BinPackingSpace_new sz) requests)
    as [[results sp']|] eqn:Hrun.
  - exists results, sp'. split; [reflexivity|].
    destruct (run_invariant _ _ _ _ _ Hwf Hnn Hrun)
      as (_ & _ & _ & Hin & _).
    intros r Hr. apply placements_In in Hr.
    rewrite Forall_forall in Hin. apply (Hin r Hr).
  - exfalso. apply (run_total requests fuel _ Hwf Hnn); [simpl; lia | exact Hrun].
Qed.

Lemma insert_placements_within_witness :
  size_int (mkSize 10 10) /\
  Forall nonneg [mkSize 4 4; mkSize 7 3; mkSize 6 6] /\
  (2 * length [mkSize 4 4; mkSize 7 3; mkSize 6 6] + 3 <= 9)%nat /\
  exists results sp',
    run 9 (BinPackingSpace_new (mkSize 10 10))
        [mkSize 4 4; mkSize 7 3; mkSize 6 6]
    = Some (results, sp') /\
    forall r, In (Some r) results -> rect_within r (rect_of_size (mkSize 10 10)).
Proof.
  assert (H1 : size_int (mkSize 10 10))
    by (unfold size_int, in_int, int_min, int_max; simpl; lia).
  assert (H2 : Forall nonneg [mkSize 4 4; mkSize 7 3; mkSize 6 6])
    by (repeat constructor; simpl; lia).
  assert (H3 : (2 * length [mkSize 4 4; mkSize 7 3; mkSize 6 6] + 3 <= 9)%nat)
    by (simpl; lia).
  split; [exact H1|]. split; [exact H2|]. split; [exact H3|].
  exact (insert_placements_within _ _ _ H1 H2 H3).
Defined.

(** C3 (the split).  A free leaf with bounds [b] receives a request that fits
    but is not exactly its size.  The call turns the leaf into an internal
    node with the same bounds.  If the leftover width is strictly greater
    than the leftover height, child 0 keeps the origin, has the requested
    width and the full height, and child 1 starts the requested width further
    along x with the remaining width and the full height; otherwise (ties
    included) child 0 keeps the origin, has the full width and the requested
    height, and child 1 starts the requested height further along y with the
    remaining height and the full width.  Either way every point of [b] is in
    exactly one child and the children have no other point. *)
Theorem split_children_tile (b : Rectanglei) (sz : Size2i) (fuel : nat) :
  rect_ok b -> nonneg sz -> fits sz b -> size b <> sz -> (3 <= fuel)%nat ->
  exists r child0 child1,
    Node_insert fuel (Leaf b false) sz
    = Some (Some r, Branch b false child0 child1) /\
    (if width (size b) - width sz >? height (size b) - height sz
     then
       bounds child0
       = mkRect (origin b) (mkSize (width sz) (height (size b))) /\
       bounds child1
       = mkRect (mkPoint (x (origin b) + width sz) (y (origin b)))
                (mkSize (width (size b) - width sz) (height (size b)))
     else
       bounds child0
       = mkRect (origin b) (mkSize (width (size b)) (height sz)) /\
       bounds child1
       = mkRect (mkPoint (x (origin b)) (y (origin b) + height sz))
                (mkSize (width (size b)) (height (size b) - height sz))) /\
    partitions b (bounds child0) (bounds child1).
Proof.
  intros Hb Hs Hfit Hne Hfuel.
  destruct fuel as [|fuel]; [lia|]. simpl.
  rewrite (fits_not_small _ _ Hfit).
  destruct (size_eqb (size b) sz) eqn:Eeq;
    [apply size_eqb_eq in Eeq; contradiction|].
  rewrite (split_cut _ _ Hb Hs Hfit).
  destruct (cut_ok _ _ Hb Hs Hfit) as [Hok0 Hok1].
  pose proof (cut_slack _ _ Hfit Hne) as Hsl.
  pose proof (slack_le_2 b sz) as Hsl2.
  destruct (Node_insert fuel (Leaf (fst (cut b sz)) false) sz)
    as [[res c0']|] eqn:Hc.
  - destruct (Node_insert_sound _ (Leaf (fst (cut b sz)) false) _ _ _
                Hok0 Hs Hc) as (_ & B' & R).
    simpl in B'.
    destruct res as [r|].
    + exists r, c0', (Leaf (snd (cut b sz)) false).
      split; [reflexivity|]. rewrite B'. simpl. split.
      * unfold cut.
        destruct (width (size b) - width sz >? height (size b) - height sz);
          simpl; split; reflexivity.
      * apply tiles_partitions, cut_tiles; assumption.
    + destruct R as [_ R]. simpl in R.
      rewrite (fits_not_small _ _ (cut_fits _ _ Hfit)) in R. discriminate.
  - exfalso.
    apply (leaf_insert_total fuel (fst (cut b sz)) false sz Hok0 Hs);
      [lia | exact Hc].
Qed.

Lemma split_children_tile_witness :
  rect_ok (mkRect (mkPoint 2 3) (mkSize 10 8)) /\
  nonneg (mkSize 4 5) /\
  fits (mkSize 4 5) (mkRect (mkPoint 2 3) (mkSize 10 8)) /\
  size (mkRect (mkPoint 2 3) (mkSize 10 8)) <> mkSize 4 5 /\
  (3 <= 3)%nat /\
  exists r child0 child1,
    Node_insert 3 (Leaf (mkRect (mkPoint 2 3) (mkSize 10 8)) false) (mkSize 4 5)
    = Some (Some r, Branch (mkRect (mkPoint 2 3) (mkSize 10 8)) false
                           child0 child1) /\
    (bounds child0 = mkRect (mkPoint 2 3) (mkSize 4 8) /\
     bounds child1 = mkRect (mkPoint 6 3) (mkSize 6 8)) /\
    partitions (mkRect (mkPoint 2 3) (mkSize 10 8))
               (bounds child0) (bounds child1).
Proof.
  assert (H1 : rect_ok (mkRect (mkPoint 2 3) (mkSize 10 8)))
    by (unfold rect_ok, int_min, int_max; simpl; lia).
  assert (H2 : nonneg (mkSize 4 5)) by (unfold nonneg; simpl; lia).
  assert (H3 : fits (mkSize 4 5) (mkRect (mkPoint 2 3) (mkSize 10 8)))
    by (unfold fits; simpl; lia).
  assert (H4 : size (mkRect (mkPoint 2 3) (mkSize 10 8)) <> mkSize 4 5)
    by (simpl; discriminate).
  assert (H5 : (3 <= 3)%nat) by lia.
  split; [exact H1|]. split; [exact H2|]. split; [exact H3|].
  split; [exact H4|]. split; [exact H5|].
  exact (split_children_tile _ _ _ H1 H2 H3 H4 H5).
Defined.

(** C4 (search order).  On an internal node the call first inserts into
    child 0.  When that attempt returns a placement, the call returns exactly
    that placement and child 1 is not touched; when it returns none, the call
    returns whatever inserting into child 1 returns, placement or none. *)
Theorem branch_tries_child0_first
  (fuel : nat) (b : Rectanglei) (tk : bool) (child0 child1 : Node)
  (sz : Size2i) (res0 : option Rectanglei) (child0' : Node) :
  Node_insert fuel child0 sz = Some (res0, child0') ->
  match res0 with
  | Some r =>
      Node_insert (S fuel) (Branch b tk child0 child1) sz
      = Some (Some r, Branch b tk child0' child1)
  | None =>
      Node_insert (S fuel) (Branch b tk child0 child1) sz
      = match Node_insert fuel child1 sz with
        | Some (res1, child1') => Some (res1, Branch b tk child0' child1')
        | None => None
        end
  end.
Proof.
  intros H0. destruct res0 as [r|]; simpl; rewrite H0; reflexivity.
Qed.

Lemma branch_tries_child0_first_witness :
  Node_insert 1 (Leaf (mkRect (mkPoint 0 0) (mkSize 4 10)) false) (mkSize 4 10)
  = Some (Some (mkRect (mkPoint 0 0) (mkSize 4 10)),
          Leaf (mkRect (mkPoint 0 0) (mkSize 4 10)) true) /\
  Node_insert 2
    (Branch (mkRect (mkPoint 0 0) (mkSize 10 10)) false
       (Leaf (mkRect (mkPoint 0 0) (mkSize 4 10)) false)
       (Leaf (mkRect (mkPoint 4 0) (mkSize 6 10)) false))
    (mkSize 4 10)
  = Some (Some (mkRect (mkPoint 0 0) (mkSize 4 10)),
          Branch (mkRect (mkPoint 0 0) (mkSize 10 10)) false
            (Leaf (mkRect (mkPoint 0 0) (mkSize 4 10)) true)
            (Leaf (mkRect (mkPoint 4 0) (mkSize 6 10)) false)).
Proof.
  assert (H0 : Node_insert 1 (Leaf (mkRect (mkPoint 0 0) (mkSize 4 10)) false)
                 (mkSize 4 10)
               = Some (Some (mkRect (mkPoint 0 0) (mkSize 4 10)),
                       Leaf (mkRect (mkPoint 0 0) (mkSize 4 10)) true))
    by reflexivity.
  split; [exact H0|].
  exact (branch_tries_child0_first 1 (mkRect (mkPoint 0 0) (mkSize 10 10))
           false _ (Leaf (mkRect (mkPoint 4 0) (mkSize 6 10)) false) _ _ _ H0).
Defined.

(** A request that no free leaf of the tree is large enough for, by area,
    fails everywhere in it. *)
Lemma smaller_leaves_fail (n : Node) (sz : Size2i) :
  nonneg sz ->
  (forall path b, subtree n path = Some (Leaf b false) ->
                  area b < width sz * height sz) ->
  failsb n sz = true.
Proof.
  intros [Hw Hh].
  induction n as [b tk | b tk c0 IH0 c1 IH1]; intros Hsmall; simpl.
  - destruct tk; [reflexivity|]. simpl.
    specialize (Hsmall [] b eq_refl). unfold area in Hsmall.
    apply orb_true_iff. rewrite !Z.ltb_lt.
    destruct (Z.lt_ge_cases (width (size b)) (width sz)) as [|Hge1]; [auto|].
    destruct (Z.lt_ge_cases (height (size b)) (height sz)) as [|Hge2]; [auto|].
    exfalso. nia.
  - rewrite IH0, IH1; [reflexivity | |].
    + intros path b' H. apply (Hsmall (true :: path)). exact H.
    + intros path b' H. apply (Hsmall (false :: path)). exact H.
Qed.

(** C5 (exact fit).  [largest] is the bounds of a free leaf of the tree, at
    position [path], and every other free leaf has a strictly smaller area.
    Inserting exactly the size of [largest] returns [largest]; the tree after
    the call is the tree before it with that one leaf marked taken, so it has
    the same nodes and no new one. *)
Theorem exact_fit_takes_largest_leaf (n : Node) :
  forall (path : list bool) (largest : Rectanglei) (fuel : nat),
  subtree n path = Some (Leaf largest false) ->
  nonneg (size largest) ->
  (forall path' b, subtree n path' = Some (Leaf b false) ->
                   path' <> path -> area b < area largest) ->
  (tree_height n < fuel)%nat ->
  Node_insert fuel n (size largest)
  = Some (Some largest, set_taken n path) /\
  subtree (set_taken n path) path = Some (Leaf largest true) /\
  node_count (set_taken n path) = node_count n.
Proof.
  induction n as [b tk | b tk c0 IH0 c1 IH1];
    intros path largest fuel Hat Hs Hmax Hfuel.
  - destruct path as [|d rest]; [|discriminate].
    simpl in Hat. inversion Hat; subst.
    destruct fuel as [|fuel]; [lia|]. simpl.
    rewrite !Z.ltb_irrefl. simpl.
    assert (E : size_eqb (size largest) (size largest) = true)
      by (apply size_eqb_eq; reflexivity).
    rewrite E. auto.
  - destruct path as [|d rest]; [discriminate|].
    simpl in Hat, Hfuel. destruct fuel as [|fuel]; [lia|].
    destruct d.
    + (* the leaf is under child 1: child 0 has no room *)
      assert (F0 : failsb c0 (size largest) = true).
      { apply smaller_leaves_fail; [exact Hs|].
        intros path' b' H. apply (Hmax (false :: path') b' H). discriminate. }
      destruct (IH1 rest largest fuel Hat Hs) as (I1 & S1 & C1); [|lia|].
      { intros path' b' H Hne. apply (Hmax (true :: path') b' H). congruence. }
      simpl. rewrite (fails_insert _ _ F0) by lia. rewrite I1.
      simpl. rewrite S1, C1. auto.
    + destruct (IH0 rest largest fuel Hat Hs) as (I0 & S0 & C0); [|lia|].
      { intros path' b' H Hne. apply (Hmax (false :: path') b' H). congruence. }
      simpl. rewrite I0. simpl. rewrite S0, C0. auto.
Qed.

Lemma exact_fit_takes_largest_leaf_witness :
  subtree
    (Branch (mkRect (mkPoint 0 0) (mkSize 10 10)) false
       (Branch (mkRect (mkPoint 0 0) (mkSize 10 4)) false
          (Leaf (mkRect (mkPoint 0 0) (mkSize 4 4)) true)
          (Leaf (mkRect (mkPoint 4 0) (mkSize 6 4)) false))
       (Leaf (mkRect (mkPoint 0 4) (mkSize 10 6)) false))
    [true]
  = Some (Leaf (mkRect (mkPoint 0 4) (mkSize 10 6)) false) /\
  Node_insert 3
    (Branch (mkRect (mkPoint 0 0) (mkSize 10 10)) false
       (Branch (mkRect (mkPoint 0 0) (mkSize 10 4)) false
          (Leaf (mkRect (mkPoint 0 0) (mkSize 4 4)) true)
          (Leaf (mkRect (mkPoint 4 0) (mkSize 6 4)) false))
       (Leaf (mkRect (mkPoint 0 4) (mkSize 10 6)) false))
    (mkSize 10 6)
  = Some (Some (mkRect (mkPoint 0 4) (mkSize 10 6)),
          Branch (mkRect (mkPoint 0 0) (mkSize 10 10)) false
            (Branch (mkRect (mkPoint 0 0) (mkSize 10 4)) false
               (Leaf (mkRect (mkPoint 0 0) (mkSize 4 4)) true)
               (Leaf (mkRect (mkPoint 4 0) (mkSize 6 4)) false))
            (Leaf (mkRect (mkPoint 0 4) (mkSize 10 6)) true)).
Proof.
  split; [reflexivity|].
  refine (proj1 (exact_fit_takes_largest_leaf
    (Branch (mkRect (mkPoint 0 0) (mkSize 10 10)) false
       (Branch (mkRect (mkPoint 0 0) (mkSize 10 4)) false
          (Leaf (mkRect (mkPoint 0 0) (mkSize 4 4)) true)
          (Leaf (mkRect (mkPoint 4 0) (mkSize 6 4)) false))
       (Leaf (mkRect (mkPoint 0 4) (mkSize 10 6)) false))
    [true] (mkRect (mkPoint 0 4) (mkSize 10 6)) 3 eq_refl _ _ _)).
  - unfold nonneg; simpl; lia.
  - intros path' b H Hne.
    destruct path' as [|[|] [|[|] [|? ?]]]; simpl in H;
      try discriminate; try (exfalso; apply Hne; reflexivity);
      inversion H; subst; unfold area; simpl; lia.
  - simpl; lia.
Defined.

(** C6 (the first child has room).  A free leaf receives a non-negative
    request that fits in it.  The call returns a placement.  When the fit is
    not exact, the first child made by the split is at least as wide and as
    high as the request, and the recursive call on it returns a placement. *)
Theorem fitting_leaf_insert_succeeds
  (b : Rectanglei) (sz : Size2i) (fuel : nat) :
  rect_ok b -> nonneg sz -> fits sz b -> (3 <= fuel)%nat ->
  (exists r n', Node_insert fuel (Leaf b false) sz = Some (Some r, n')) /\
  (size b <> sz ->
   fits sz (bounds (fst (split b sz))) /\
   exists r child0',
     Node_insert (fuel - 1) (fst (split b sz)) sz = Some (Some r, child0')).
Proof.
  intros Hb Hs Hfit Hfuel.
  assert (Hleaf : forall b0 f, rect_ok b0 -> fits sz b0 ->
            (slack b0 sz < f)%nat ->
            exists r n', Node_insert f (Leaf b0 false) sz = Some (Some r, n')).
  { intros b0 f Hb0 Hfit0 Hf.
    destruct (Node_insert f (Leaf b0 false) sz) as [[res n']|] eqn:H.
    - destruct (Node_insert_sound _ (Leaf b0 false) _ _ _ Hb0 Hs H)
        as (_ & _ & R).
      destruct res as [r|]; [eauto|].
      destruct R as [_ R]. simpl in R.
      rewrite (fits_not_small _ _ Hfit0) in R. discriminate.
    - exfalso. apply (leaf_insert_total f b0 false sz Hb0 Hs Hf H). }
  pose proof (slack_le_2 b sz) as Hsl2.
  split.
  - apply Hleaf; auto. lia.
  - intros Hne. rewrite (split_cut _ _ Hb Hs Hfit). simpl.
    destruct (cut_ok _ _ Hb Hs Hfit) as [Hok0 _].
    pose proof (cut_slack _ _ Hfit Hne) as Hsl.
    split; [apply cut_fits; exact Hfit|].
    apply Hleaf; auto using cut_fits. lia.
Qed.

Lemma fitting_leaf_insert_succeeds_witness :
  rect_ok (mkRect (mkPoint 0 0) (mkSize 10 10)) /\
  nonneg (mkSize 4 4) /\
  fits (mkSize 4 4) (mkRect (mkPoint 0 0) (mkSize 10 10)) /\
  (3 <= 3)%nat /\
  (exists r n',
     Node_insert 3 (Leaf (mkRect (mkPoint 0 0) (mkSize 10 10)) false)
       (mkSize 4 4) = Some (Some r, n')) /\
  (size (mkRect (mkPoint 0 0) (mkSize 10 10)) <> mkSize 4 4 ->
   fits (mkSize 4 4)
     (bounds (fst (split (mkRect (mkPoint 0 0) (mkSize 10 10)) (mkSize 4 4))))
   /\
   exists r child0',
     Node_insert (3 - 1)
       (fst (split (mkRect (mkPoint 0 0) (mkSize 10 10)) (mkSize 4 4)))
       (mkSize 4 4) = Some (Some r, child0')).
Proof.
  assert (H1 : rect_ok (mkRect (mkPoint 0 0) (mkSize 10 10)))
    by (unfold rect_ok, int_min, int_max; simpl; lia).
  assert (H2 : nonneg (mkSize 4 4)) by (unfold nonneg; simpl; lia).
  assert (H3 : fits (mkSize 4 4) (mkRect (mkPoint 0 0) (mkSize 10 10)))
    by (unfold fits; simpl; lia).
  assert (H4 : (3 <= 3)%nat) by lia.
  split; [exact H1|]. split; [exact H2|]. split; [exact H3|].
  split; [exact H4|].
  exact (fitting_leaf_insert_succeeds _ _ _ H1 H2 H3 H4).
Defined.

(** C7 (failure).  On a well-formed tree and for a non-negative request the
    call returns, with a placement or with none: failure is the absence of a
    placement and nothing else.  It returns none exactly when the node fails
    by one of the three causes: a taken leaf, a leaf smaller than the request
    in width or in height, an internal node both of whose children fail. *)
Theorem insert_fails_iff (n : Node) (sz : Size2i) (fuel : nat) :
  wf n -> nonneg sz -> (tree_height n + 3 <= fuel)%nat ->
  exists res n',
    Node_insert fuel n sz = Some (res, n') /\
    (res = None <-> failsb n sz = true).
Proof.
  intros Hwf Hs Hfuel.
  destruct (Node_insert fuel n sz) as [[res n']|] eqn:H.
  - exists res, n'. split; [reflexivity|].
    destruct (Node_insert_sound _ _ _ _ _ Hwf Hs H) as (_ & _ & R).
    destruct res as [r|].
    + destruct R as [F _]. rewrite F. split; discriminate.
    + destruct R as [_ F]. rewrite F. split; reflexivity.
  - exfalso. apply (Node_insert_total _ _ Hwf Hs fuel Hfuel H).
Qed.

Lemma insert_fails_iff_witness :
  wf (Branch (mkRect (mkPoint 0 0) (mkSize 10 10)) false
        (Leaf (mkRect (mkPoint 0 0) (mkSize 4 10)) true)
        (Leaf (mkRect (mkPoint 4 0) (mkSize 6 10)) false)) /\
  nonneg (mkSize 7 2) /\
  exists res n',
    Node_insert 4
      (Branch (mkRect (mkPoint 0 0) (mkSize 10 10)) false
         (Leaf (mkRect (mkPoint 0 0) (mkSize 4 10)) true)
         (Leaf (mkRect (mkPoint 4 0) (mkSize 6 10)) false))
      (mkSize 7 2) = Some (res, n') /\
    (res = None <->
     failsb
       (Branch (mkRect (mkPoint 0 0) (mkSize 10 10)) false
          (Leaf (mkRect (mkPoint 0 0) (mkSize 4 10)) true)
          (Leaf (mkRect (mkPoint 4 0) (mkSize 6 10)) false))
       (mkSize 7 2) = true).
Proof.
  assert (H1 : wf (Branch (mkRect (mkPoint 0 0) (mkSize 10 10)) false
                     (Leaf (mkRect (mkPoint 0 0) (mkSize 4 10)) true)
                     (Leaf (mkRect (mkPoint 4 0) (mkSize 6 10)) false))).
  { simpl. unfold rect_ok, tiles, int_min, int_max. simpl.
    split; [lia|]. split; [|split; lia].
    left. exists 4. split; [lia|]. split; reflexivity. }
  assert (H2 : nonneg (mkSize 7 2)) by (unfold nonneg; simpl; lia).
  split; [exact H1|]. split; [exact H2|].
  refine (insert_fails_iff _ _ 4 H1 H2 _). simpl; lia.
Defined.

(** C8 (oversize).  After any sequence of calls with non-negative sizes on a
    space of size [sz], a request wider than [sz] or higher than [sz] returns
    no placement and leaves the space as it is. *)
Theorem oversize_insert_fails
  (sz : Size2i) (requests : list Size2i) (big : Size2i) (fuel : nat) :
  size_int sz -> Forall nonneg requests ->
  width sz < width big \/ height sz < height big ->
  (2 * length requests + 3 <= fuel)%nat ->
  exists results sp,
    run fuel (BinPackingSpace_new sz) requests = Some (results, sp) /\
    BinPackingSpace_insert fuel sp big = Some (None, sp).
Proof.
  intros Hsz Hnn Hbig Hfuel.
  pose proof (new_wf sz Hsz) as Hwf.
  destruct (run fuel (BinPackingSpace_new sz) requests)
    as [[results sp]|] eqn:Hrun.
  - exists results, sp. split; [reflexivity|].
    destruct (run_invariant _ _ _ _ _ Hwf Hnn Hrun)
      as (W & B & Hh & _).
    pose proof (run_length _ _ _ _ _ Hrun) as Hlen.
    pose proof (placements_length results) as Hpl.
    simpl in B, Hh.
    assert (F : failsb (root sp) big = true).
    { apply oversize_failsb; [exact W|]. rewrite B. exact Hbig. }
    unfold BinPackingSpace_insert.
    rewrite (fails_insert _ _ F) by lia.
    destruct sp; reflexivity.
  - exfalso. apply (run_total requests fuel _ Hwf Hnn); [simpl; lia | exact Hrun].
Qed.

Lemma oversize_insert_fails_witness :
  size_int (mkSize 10 10) /\
  Forall nonneg [mkSize 4 4; mkSize 1 1] /\
  (width (mkSize 10 10) < width (mkSize 3 11) \/
   height (mkSize 10 10) < height (mkSize 3 11)) /\
  exists results sp,
    run 7 (BinPackingSpace_new (mkSize 10 10)) [mkSize 4 4; mkSize 1 1]
    = Some (results, sp) /\
    BinPackingSpace_insert 7 sp (mkSize 3 11) = Some (None, sp).
Proof.
  assert (H1 : size_int (mkSize 10 10))
    by (unfold size_int, in_int, int_min, int_max; simpl; lia).
  assert (H2 : Forall nonneg [mkSize 4 4; mkSize 1 1])
    by (repeat constructor; simpl; lia).
  assert (H3 : width (mkSize 10 10) < width (mkSize 3 11) \/
               height (mkSize 10 10) < height (mkSize 3 11))
    by (right; simpl; lia).
  split; [exact H1|]. split; [exact H2|]. split; [exact H3|].
  refine (oversize_insert_fails _ _ _ 7 H1 H2 H3 _). simpl; lia.
Defined.

(** C9, as the code has it.  Every call with a non-negative size on a space
    of [int] size returns, and its recursion is at most [2 * k + 3] nested
    activations of [Node::insert] deep, where [k] is the number of earlier
    calls on the space that returned a placement: a placement makes the tree
    at most two levels higher, a failing call leaves it as it is, and a call
    goes at most three activations further than the tree is high. *)
Theorem insert_depth_bound (sz : Size2i) (requests : list Size2i) :
  size_int sz -> Forall nonneg requests ->
  (exists results sp,
     run (2 * length requests + 3) (BinPackingSpace_new sz) requests
     = Some (results, sp)) /\
  (forall fuel results sp next,
     run fuel (BinPackingSpace_new sz) requests = Some (results, sp) ->
     nonneg next ->
     exists res sp',
       BinPackingSpace_insert (2 * length (placements results) + 3) sp next
       = Some (res, sp')).
Proof.
  intros Hsz Hnn.
  pose proof (new_wf sz Hsz) as Hwf.
  split.
  - destruct (run (2 * length requests + 3) (BinPackingSpace_new sz) requests)
      as [[results sp]|] eqn:Hrun; [eauto|].
    exfalso.
    apply (run_total requests (2 * length requests + 3)%nat _ Hwf Hnn);
      [simpl; lia | exact Hrun].
  - intros fuel results sp next Hrun Hnext.
    destruct (run_invariant _ _ _ _ _ Hwf Hnn Hrun) as (W & _ & Hh & _).
    simpl in Hh. unfold BinPackingSpace_insert.
    destruct (Node_insert (2 * length (placements results) + 3) (root sp) next)
      as [[res n']|] eqn:H; [eauto|].
    exfalso.
    apply (Node_insert_total _ _ W Hnext
             (2 * length (placements results) + 3)%nat); [lia | exact H].
Qed.

Lemma insert_depth_bound_witness :
  size_int (mkSize 10 10) /\
  Forall nonneg [mkSize 4 4] /\
  (exists results sp,
     run (2 * length [mkSize 4 4] + 3) (BinPackingSpace_new (mkSize 10 10))
         [mkSize 4 4]
     = Some (results, sp)) /\
  (forall fuel results sp next,
     run fuel (BinPackingSpace_new (mkSize 10 10)) [mkSize 4 4]
     = Some (results, sp) ->
     nonneg next ->
     exists res sp',
       BinPackingSpace_insert (2 * length (placements results) + 3) sp next
       = Some (res, sp')).
Proof.
  assert (H1 : size_int (mkSize 10 10))
    by (unfold size_int, in_int, int_min, int_max; simpl; lia).
  assert (H2 : Forall nonneg [mkSize 4 4])
    by (repeat constructor; simpl; lia).
  split; [exact H1|]. split; [exact H2|].
  exact (insert_depth_bound _ _ H1 H2).
Defined.

(** C9 as stated does not hold: the depth of a call is not bounded by the
    number of earlier placements.  On a fresh space of size 10 x 10, with no
    earlier placement, the call [insert (4, 4)] splits the root, splits its
    first child, and takes the first grandchild: three nested activations.
    Allowing one activation more than there were placements, the root call
    itself, is not enough for it to return. *)
Lemma insert_depth_exceeds_prior_placements :
  ~ (forall sz requests fuel results sp next,
       size_int sz -> Forall nonneg requests -> nonneg next ->
       run fuel (BinPackingSpace_new sz) requests = Some (results, sp) ->
       BinPackingSpace_insert (S (length (placements results))) sp next
       <> None).
Proof.
  intros H.
  apply (H (mkSize 10 10) [] 1%nat [] (BinPackingSpace_new (mkSize 10 10))
           (mkSize 4 4)).
  - unfold size_int, in_int, int_min, int_max; simpl; lia.
  - constructor.
  - unfold nonneg; simpl; lia.
  - reflexivity.
  - reflexivity.
Qed.

(** C10 (requested size).  Whenever [insert] returns a placement, the size of
    the rectangle is the requested size; this holds for every space and every
    request, non-negative or not. *)
Theorem placement_has_requested_size
  (fuel : nat) (sp : BinPackingSpace) (sz : Size2i)
  (r : Rectanglei) (sp' : BinPackingSpace) :
  BinPackingSpace_insert fuel sp sz = Some (Some r, sp') -> size r = sz.
Proof.
  intros H. apply Space_insert_inv in H.
  eapply Node_insert_size; eauto.
Qed.

Lemma placement_has_requested_size_witness :
  BinPackingSpace_insert 3 (BinPackingSpace_new (mkSize 10 10)) (mkSize 4 4)
  = Some (Some (mkRect (mkPoint 0 0) (mkSize 4 4)),
          mkSpace
            (Branch (mkRect (mkPoint 0 0) (mkSize 10 10)) false
               (Branch (mkRect (mkPoint 0 0) (mkSize 10 4)) false
                  (Leaf (mkRect (mkPoint 0 0) (mkSize 4 4)) true)
                  (Leaf (mkRect (mkPoint 4 0) (mkSize 6 4)) false))
               (Leaf (mkRect (mkPoint 0 4) (mkSize 10 6)) false))) /\
  size (mkRect (mkPoint 0 0) (mkSize 4 4)) = mkSize 4 4.
Proof.
  assert (H : BinPackingSpace_insert 3 (BinPackingSpace_new (mkSize 10 10))
                (mkSize 4 4)
              = Some (Some (mkRect (mkPoint 0 0) (mkSize 4 4)),
                      mkSpace
                        (Branch (mkRect (mkPoint 0 0) (mkSize 10 10)) false
                           (Branch (mkRect (mkPoint 0 0) (mkSize 10 4)) false
                              (Leaf (mkRect (mkPoint 0 0) (mkSize 4 4)) true)
                              (Leaf (mkRect (mkPoint 4 0) (mkSize 6 4)) false))
                           (Leaf (mkRect (mkPoint 0 4) (mkSize 10 6)) false))))
    by reflexivity.
  split; [exact H|].
  exact (placement_has_requested_size _ _ _ _ _ H).
Defined.

(** ** Further properties of [insert] *)

(** Undoing a subtraction: [a - (a - s)] is [s] in 32-bit arithmetic, also
    when the inner difference wraps. *)
Lemma int_sub_sub (a s : Z) : in_int s -> int_sub a (int_sub a s) = s.
Proof.
  unfold in_int, int_min, int_max, int_sub, wrap. intros Hs.
  Z.div_mod_to_equations. lia.
Qed.

(** The first child of a split starts where the leaf starts and has room for
    the request, for every leaf. *)
Lemma split_child0 (b : Rectanglei) (sz : Size2i) :
  size_int sz -> fits sz b ->
  exists b0 child1,
    split b sz = (Leaf b0 false, child1) /\
    origin b0 = origin b /\ fits sz b0.
Proof.
  unfold size_int, fits, split. intros [Hw Hh] [Fw Fh].
  destruct (int_sub (width (size b)) (width sz) >?
            int_sub (height (size b)) (height sz)).
  - eexists; eexists. split; [reflexivity|]. simpl.
    rewrite (int_sub_sub _ _ Hw). split; [reflexivity|]. lia.
  - eexists; eexists. split; [reflexivity|]. simpl.
    rewrite (int_sub_sub _ _ Hh). split; [reflexivity|]. lia.
Qed.

Lemma rect_eta (b : Rectanglei) (sz : Size2i) :
  size b = sz -> b = mkRect (origin b) sz.
Proof. intros <-. destruct b; reflexivity. Qed.

(** A call on a free leaf with room returns a placement when it returns, and
    the placement is at the origin of the leaf. *)
Lemma leaf_insert_at_origin (fuel : nat) :
  forall b sz res n',
  size_int sz -> fits sz b ->
  Node_insert fuel (Leaf b false) sz = Some (res, n') ->
  res = Some (mkRect (origin b) sz).
Proof.
  induction fuel as [|fuel IH]; intros b sz res n' Hs Hfit H;
    [discriminate|].
  simpl in H. rewrite (fits_not_small _ _ Hfit) in H.
  destruct (size_eqb (size b) sz) eqn:Eeq.
  - apply size_eqb_eq in Eeq. inversion H; subst.
    f_equal. apply rect_eta. reflexivity.
  - destruct (split_child0 b sz Hs Hfit) as (b0 & c1 & Esp & Eo & Hfit0).
    rewrite Esp in H.
    destruct (Node_insert fuel (Leaf b0 false) sz) as [[res0 c0']|] eqn:Hc;
      [|discriminate].
    inversion H; subst. rewrite <- Eo. eapply IH; eauto.
Qed.

Lemma find_app_first {A : Type} (f : A -> bool) (l1 l2 : list A) :
  find f (l1 ++ l2)
  = match find f l1 with Some a => Some a | None => find f l2 end.
Proof.
  induction l1 as [|a l1 IH]; simpl; [reflexivity|].
  destruct (f a); [reflexivity | exact IH].
Qed.

(** The root of what a call returns has the bounds it had. *)
Lemma Node_insert_bounds (fuel : nat) (n : Node) (sz : Size2i) res n' :
  Node_insert fuel n sz = Some (res, n') -> bounds n' = bounds n.
Proof.
  destruct fuel as [|fuel]; [discriminate|].
  destruct n as [b tk | b tk c0 c1]; simpl.
  - destruct tk; [intros H; inversion H; reflexivity|].
    destruct ((width (size b) <? width sz) || (height (size b) <? height sz));
      [intros H; inversion H; reflexivity|].
    destruct (size_eqb (size b) sz); [intros H; inversion H; reflexivity|].
    destruct (split b sz) as [child0 child1].
    destruct (Node_insert fuel child0 sz) as [[res0 c0']|]; [|discriminate].
    intros H; inversion H; reflexivity.
  - destruct (Node_insert fuel c0 sz) as [[[r|] c0']|]; [ | |discriminate].
    + intros H; inversion H; reflexivity.
    + destruct (Node_insert fuel c1 sz) as [[res1 c1']|]; [|discriminate].
      intros H; inversion H; reflexivity.
Qed.

(** The search is first fit, whatever the tree. *)
Lemma Node_insert_first_fit (fuel : nat) :
  forall n sz res n',
  size_int sz ->
  Node_insert fuel n sz = Some (res, n') -> res = first_fit n sz.
Proof.
  induction fuel as [|fuel IH]; intros n sz res n' Hs H; [discriminate|].
  destruct n as [b tk | b tk c0 c1].
  - unfold first_fit, hosts. simpl.
    destruct tk; [simpl in *; inversion H; reflexivity|].
    destruct ((width (size b) <? width sz) || (height (size b) <? height sz))
      eqn:Esmall.
    + simpl in *. rewrite Esmall in H. inversion H; reflexivity.
    + simpl. eapply leaf_insert_at_origin; eauto using not_small_fits.
  - simpl in H. unfold first_fit. simpl. rewrite find_app_first.
    destruct (Node_insert fuel c0 sz) as [[[r|] c0']|] eqn:H0;
      [ | |discriminate].
    + inversion H; subst. pose proof (IH _ _ _ _ Hs H0) as E.
      unfold first_fit in E.
      destruct (find (hosts sz) (leaves c0)); [exact E | discriminate].
    + pose proof (IH _ _ _ _ Hs H0) as E. unfold first_fit in E.
      destruct (find (hosts sz) (leaves c0)); [discriminate|].
      destruct (Node_insert fuel c1 sz) as [[res1 c1']|] eqn:H1;
        [|discriminate].
      inversion H; subst. exact (IH _ _ _ _ Hs H1).
Qed.

(** A call that returns no placement returns the tree it was given. *)
Lemma Node_insert_fail_same (fuel : nat) :
  forall n sz n',
  size_int sz -> Node_insert fuel n sz = Some (None, n') -> n' = n.
Proof.
  induction fuel as [|fuel IH]; intros n sz n' Hs H; [discriminate|].
  destruct n as [b tk | b tk c0 c1].
  - destruct tk; [simpl in H; inversion H; reflexivity|].
    destruct ((width (size b) <? width sz) || (height (size b) <? height sz))
      eqn:Esmall.
    + simpl in H. rewrite Esmall in H. inversion H; reflexivity.
    + pose proof (leaf_insert_at_origin _ _ _ _ _ Hs
                    (not_small_fits _ _ Esmall) H).
      discriminate.
  - simpl in H.
    destruct (Node_insert fuel c0 sz) as [[[r|] c0']|] eqn:H0;
      [discriminate | |discriminate].
    destruct (Node_insert fuel c1 sz) as [[[r|] c1']|] eqn:H1;
      [discriminate | |discriminate].
    inversion H; subst.
    rewrite (IH _ _ _ Hs H0), (IH _ _ _ Hs H1). reflexivity.
Qed.

Lemma taken_leaves_branch b tk c0 c1 :
  taken_leaves (Branch b tk c0 c1) = taken_leaves c0 ++ taken_leaves c1.
Proof.
  unfold taken_leaves. simpl. rewrite filter_app, map_app. reflexivity.
Qed.

(** A placement adds its rectangle to the taken leaves and changes no other;
    a call without placement changes none. *)
Lemma Node_insert_taken_leaves (fuel : nat) :
  forall n sz res n',
  Node_insert fuel n sz = Some (res, n') ->
  match res with
  | Some r => exists l1 l2, taken_leaves n = l1 ++ l2 /\
                            taken_leaves n' = l1 ++ r :: l2
  | None => taken_leaves n' = taken_leaves n
  end.
Proof.
  induction fuel as [|fuel IH]; intros n sz res n' H; [discriminate|].
  destruct n as [b tk | b tk c0 c1]; simpl in H.
  - destruct tk; [inversion H; reflexivity|].
    destruct ((width (size b) <? width sz) || (height (size b) <? height sz));
      [inversion H; reflexivity|].
    destruct (size_eqb (size b) sz).
    { inversion H; subst. exists [], []. split; reflexivity. }
    destruct (split b sz) as [child0 child1] eqn:Esp.
    assert (Ec : taken_leaves child0 = [] /\ taken_leaves child1 = []).
    { unfold split in Esp.
      destruct (int_sub (width (size b)) (width sz) >?
                int_sub (height (size b)) (height sz));
        inversion Esp; subst; split; reflexivity. }
    destruct Ec as [E0 E1].
    destruct (Node_insert fuel child0 sz) as [[res0 c0']|] eqn:Hc;
      [|discriminate].
    inversion H; subst.
    pose proof (IH _ _ _ _ Hc) as R. rewrite taken_leaves_branch, E1.
    destruct res as [r|].
    + destruct R as (l1 & l2 & Ea & Eb). rewrite E0 in Ea.
      destruct l1; [|discriminate]. destruct l2; [|discriminate].
      exists [], []. split; [reflexivity|]. rewrite Eb. reflexivity.
    + rewrite R, E0. reflexivity.
  - destruct (Node_insert fuel c0 sz) as [[[r|] c0']|] eqn:H0;
      [ | |discriminate].
    + inversion H; subst.
      destruct (IH _ _ _ _ H0) as (l1 & l2 & Ea & Eb).
      exists l1, (l2 ++ taken_leaves c1).
      rewrite !taken_leaves_branch, Ea, Eb, <- !app_assoc. split; reflexivity.
    + pose proof (IH _ _ _ _ H0) as R0.
      destruct (Node_insert fuel c1 sz) as [[res1 c1']|] eqn:H1;
        [|discriminate].
      inversion H; subst.
      pose proof (IH _ _ _ _ H1) as R1.
      destruct res as [r|].
      * destruct R1 as (l1 & l2 & Ea & Eb).
        exists (taken_leaves c0 ++ l1), l2.
        rewrite !taken_leaves_branch, R0, Ea, Eb, <- !app_assoc.
        split; reflexivity.
      * rewrite !taken_leaves_branch, R0, R1. reflexivity.
Qed.

Lemma subtree_nil (n : Node) : subtree n [] = Some n.
Proof. destruct n; reflexivity. Qed.

(** What is at a position stays there: a node keeps its bounds, a taken leaf
    stays as it is, an internal node stays internal. *)
Lemma Node_insert_persist (fuel : nat) :
  forall n sz res n' path m,
  Node_insert fuel n sz = Some (res, n') ->
  subtree n path = Some m ->
  exists m',
    subtree n' path = Some m' /\ bounds m' = bounds m /\
    (forall b, m = Leaf b true -> m' = m) /\
    (forall b tk c0 c1, m = Branch b tk c0 c1 ->
                        exists c0' c1', m' = Branch b tk c0' c1').
Proof.
  induction fuel as [|fuel IH]; intros n sz res n' path m H Hsub;
    [discriminate|].
  destruct path as [|d rest].
  - rewrite subtree_nil in Hsub. injection Hsub as <-. exists n'.
    split; [apply subtree_nil|].
    split; [eapply Node_insert_bounds; eauto|].
    split.
    + intros b ->. simpl in H. inversion H; reflexivity.
    + intros b tk c0 c1 ->. simpl in H.
      destruct (Node_insert fuel c0 sz) as [[[r|] c0']|]; [ | |discriminate].
      * inversion H; eauto.
      * destruct (Node_insert fuel c1 sz) as [[res1 c1']|]; [|discriminate].
        inversion H; eauto.
  - destruct n as [b tk | b tk c0 c1]; [discriminate|].
    simpl in Hsub, H.
    assert (Hsame : exists m', Some m = Some m' /\ bounds m' = bounds m /\
              (forall b, m = Leaf b true -> m' = m) /\
              (forall b tk c0 c1, m = Branch b tk c0 c1 ->
                                  exists c0' c1', m' = Branch b tk c0' c1'))
      by (exists m; repeat split; eauto).
    destruct (Node_insert fuel c0 sz) as [[[r|] c0']|] eqn:H0;
      [ | |discriminate].
    + inversion H; subst. simpl. destruct d.
      * rewrite Hsub. exact Hsame.
      * eapply IH; eauto.
    + destruct (Node_insert fuel c1 sz) as [[res1 c1']|] eqn:H1;
        [|discriminate].
      inversion H; subst. simpl. destruct d; eapply IH; eauto.
Qed.

Lemma node_count_pos (n : Node) : (1 <= node_count n)%nat.
Proof. destruct n; simpl; lia. Qed.

Lemma leaf_insert_nodes (fuel : nat) :
  forall (b : Rectanglei) (tk : bool) (sz : Size2i) res n',
  rect_ok b -> nonneg sz ->
  Node_insert fuel (Leaf b tk) sz = Some (res, n') ->
  (node_count n' <= 1 + 2 * slack b sz)%nat.
Proof.
  induction fuel as [|fuel IH]; intros b tk sz res n' Hb Hs H;
    [discriminate|].
  simpl in H. destruct tk; [inversion H; simpl; lia|].
  destruct ((width (size b) <? width sz) || (height (size b) <? height sz))
    eqn:Esmall; [inversion H; simpl; lia|].
  pose proof (not_small_fits _ _ Esmall) as Hfit.
  destruct (size_eqb (size b) sz) eqn:Eeq; [inversion H; simpl; lia|].
  apply size_eqb_neq in Eeq.
  rewrite (split_cut _ _ Hb Hs Hfit) in H.
  pose proof (cut_slack _ _ Hfit Eeq) as Hsl.
  destruct (cut_ok _ _ Hb Hs Hfit) as [Hok0 _].
  destruct (Node_insert fuel (Leaf (fst (cut b sz)) false) sz)
    as [[res0 c0']|] eqn:Hc; [|discriminate].
  inversion H; subst; clear H.
  pose proof (IH _ _ _ _ _ Hok0 Hs Hc) as Hh.
  simpl. lia.
Qed.

Lemma Node_insert_nodes (n : Node) (sz : Size2i) :
  wf n -> nonneg sz ->
  forall fuel res n', Node_insert fuel n sz = Some (res, n') ->
  (node_count n <= node_count n' <= node_count n + 4)%nat.
Proof.
  intros Hwf Hs.
  induction n as [b tk | b tk c0 IH0 c1 IH1]; intros fuel res n' H.
  - pose proof (leaf_insert_nodes _ _ _ _ _ _ Hwf Hs H).
    pose proof (slack_le_2 b sz). pose proof (node_count_pos n').
    simpl. lia.
  - simpl in Hwf. destruct Hwf as (_ & _ & W0 & W1).
    destruct fuel as [|fuel]; [discriminate|]. simpl in H.
    destruct (Node_insert fuel c0 sz) as [[[r|] c0']|] eqn:H0;
      [ | | discriminate].
    + inversion H; subst; clear H.
      pose proof (IH0 W0 _ _ _ H0). simpl. lia.
    + destruct (Node_insert_sound _ _ _ _ _ W0 Hs H0) as (_ & _ & -> & _).
      destruct (Node_insert fuel c1 sz) as [[res1 c1']|] eqn:H1;
        [|discriminate].
      inversion H; subst; clear H.
      pose proof (IH1 W1 _ _ _ H1). simpl. lia.
Qed.

(** After a placement, every point that was free and is not in the placed
    rectangle is still free: a split loses no space. *)
Lemma Node_insert_free_rest (fuel : nat) :
  forall n sz r n',
  wf n -> nonneg sz ->
  Node_insert fuel n sz = Some (Some r, n') ->
  forall p, free_at n p -> ~ contains r p -> free_at n' p.
Proof.
  induction fuel as [|fuel IH]; intros n sz r n' Hwf Hs H p Hfree Hnr;
    [discriminate|].
  destruct n as [b tk | b tk c0 c1]; simpl in H.
  - destruct tk; [discriminate|].
    destruct ((width (size b) <? width sz) || (height (size b) <? height sz))
      eqn:Esmall; [discriminate|].
    pose proof (not_small_fits _ _ Esmall) as Hfit.
    destruct Hfree as [_ Hp].
    destruct (size_eqb (size b) sz) eqn:Eeq.
    { inversion H; subst. contradiction. }
    simpl in Hwf.
    rewrite (split_cut _ _ Hwf Hs Hfit) in H.
    destruct (Node_insert fuel (Leaf (fst (cut b sz)) false) sz)
      as [[res0 c0']|] eqn:Hc; [|discriminate].
    inversion H; subst; clear H.
    destruct (cut_ok _ _ Hwf Hs Hfit) as [Hok0 _].
    pose proof (tiles_partitions _ _ _ (cut_tiles b sz Hs Hfit) p) as [Hcov _].
    apply Hcov in Hp. simpl. destruct Hp as [Hp | Hp].
    + left. apply (IH (Leaf (fst (cut b sz)) false) sz r c0' Hok0 Hs Hc p);
        [split; [reflexivity | exact Hp] | exact Hnr].
    + right. split; [reflexivity | exact Hp].
  - simpl in Hwf. destruct Hwf as (_ & _ & W0 & W1).
    destruct (Node_insert fuel c0 sz) as [[[r0|] c0']|] eqn:H0;
      [ | | discriminate].
    + inversion H; subst; clear H. simpl.
      destruct Hfree as [Hp | Hp]; [left | right; exact Hp].
      eapply IH; [exact W0 | exact Hs | exact H0 | exact Hp | exact Hnr].
    + destruct (Node_insert_sound _ _ _ _ _ W0 Hs H0) as (_ & _ & -> & _).
      destruct (Node_insert fuel c1 sz) as [[res1 c1']|] eqn:H1;
        [|discriminate].
      inversion H; subst; clear H. simpl.
      destruct Hfree as [Hp | Hp]; [left; exact Hp | right].
      eapply IH; [exact W1 | exact Hs | exact H1 | exact Hp | exact Hnr].
Qed.

Lemma contains_dec (r : Rectanglei) (p : Point2i) :
  contains r p \/ ~ contains r p.
Proof. unfold contains. lia. Qed.

(** Over a run: a point that was free is free at the end or lies in a
    placement, and no point of a placement is free at the end. *)
Lemma run_free_split (requests : list Size2i) :
  forall fuel sp results sp',
  wf (root sp) -> Forall nonneg requests ->
  run fuel sp requests = Some (results, sp') ->
  forall p,
    (free_at (root sp) p ->
     free_at (root sp') p \/
     exists r, In r (placements results) /\ contains r p) /\
    (free_at (root sp') p ->
     forall r, In r (placements results) -> ~ contains r p).
Proof.
  induction requests as [|sz rest IH]; intros fuel sp results sp' Hwf Hnn H p.
  - inversion H; subst; simpl. split; [auto | intros _ r []].
  - simpl in H. inversion Hnn as [|? ? Hs Hrest]; subst.
    destruct (BinPackingSpace_insert fuel sp sz) as [[res sp1]|] eqn:H1;
      [|discriminate].
    destruct (run fuel sp1 rest) as [[results1 sp2]|] eqn:H2; [|discriminate].
    inversion H; subst; clear H.
    apply Space_insert_inv in H1.
    destruct (Node_insert_sound _ _ _ _ _ Hwf Hs H1) as (W1 & _ & R).
    destruct (IH _ _ _ _ W1 Hrest H2 p) as [IHa IHb].
    destruct (run_invariant _ _ _ _ _ W1 Hrest H2) as (_ & _ & _ & _ & _ & M).
    destruct res as [r|]; simpl.
    + destruct R as (_ & _ & _ & _ & Rmono). split.
      * intros Hfree. destruct (contains_dec r p) as [Hr | Hr].
        -- right. exists r. auto.
        -- pose proof (Node_insert_free_rest _ _ _ _ _ Hwf Hs H1 p Hfree Hr)
             as Hf1.
           destruct (IHa Hf1) as [Hf2 | (r' & Hin & Hc)]; [auto|].
           right. exists r'. auto.
      * intros Hf2 r' [<- | Hin].
        -- apply M, Rmono in Hf2. tauto.
        -- apply IHb; assumption.
    + destruct R as [E _]. rewrite E in *. split; assumption.
Qed.

Lemma total_area_app (l1 l2 : list Rectanglei) :
  total_area (l1 ++ l2) = total_area l1 + total_area l2.
Proof. induction l1 as [|r l1 IH]; simpl; lia. Qed.

Lemma total_area_perm (l1 l2 : list Rectanglei) :
  Permutation l1 l2 -> total_area l1 = total_area l2.
Proof. induction 1; simpl; lia. Qed.

(** In a well-formed tree the taken leaves cover no more area than the
    root. *)
Lemma wf_taken_area (n : Node) :
  wf n ->
  0 <= width (size (bounds n)) -> 0 <= height (size (bounds n)) ->
  0 <= total_area (taken_leaves n) <= area (bounds n).
Proof.
  induction n as [b tk | b tk c0 IH0 c1 IH1]; simpl; intros Hwf Hw Hh.
  - unfold taken_leaves, area. destruct tk; simpl; unfold area; nia.
  - destruct Hwf as (_ & Ht & W0 & W1).
    rewrite taken_leaves_branch, total_area_app.
    destruct Ht as [(w0 & Hw0 & E0 & E1) | (h0 & Hh0 & E0 & E1)].
    + rewrite E0 in IH0. rewrite E1 in IH1. simpl in IH0, IH1.
      specialize (IH0 W0). specialize (IH1 W1).
      unfold area in *. simpl in IH0, IH1. nia.
    + rewrite E0 in IH0. rewrite E1 in IH1. simpl in IH0, IH1.
      specialize (IH0 W0). specialize (IH1 W1).
      unfold area in *. simpl in IH0, IH1. nia.
Qed.

Lemma run_taken_leaves (requests : list Size2i) :
  forall fuel sp results sp',
  run fuel sp requests = Some (results, sp') ->
  Permutation (taken_leaves (root sp'))
              (taken_leaves (root sp) ++ placements results).
Proof.
  induction requests as [|sz rest IH]; intros fuel sp results sp' H.
  - inversion H; subst; simpl. rewrite app_nil_r. apply Permutation_refl.
  - simpl in H.
    destruct (BinPackingSpace_insert fuel sp sz) as [[res sp1]|] eqn:H1;
      [|discriminate].
    destruct (run fuel sp1 rest) as [[results1 sp2]|] eqn:H2; [|discriminate].
    inversion H; subst; clear H.
    apply Space_insert_inv in H1.
    pose proof (Node_insert_taken_leaves _ _ _ _ _ H1) as R.
    pose proof (IH _ _ _ _ H2) as P.
    destruct res as [r|]; simpl.
    + destruct R as (l1 & l2 & Ea & Eb). rewrite Eb in P. rewrite Ea.
      eapply Permutation_trans; [exact P|].
      rewrite <- !app_assoc. apply Permutation_app_head.
      simpl. apply Permutation_sym.
      eapply Permutation_trans; [apply Permutation_sym, Permutation_middle|].
      apply Permutation_refl.
    + rewrite R in P. exact P.
Qed.

Lemma run_bounds (requests : list Size2i) :
  forall fuel sp results sp',
  run fuel sp requests = Some (results, sp') ->
  bounds (root sp') = bounds (root sp).
Proof.
  induction requests as [|sz rest IH]; intros fuel sp results sp' H.
  - inversion H; reflexivity.
  - simpl in H.
    destruct (BinPackingSpace_insert fuel sp sz) as [[res sp1]|] eqn:H1;
      [|discriminate].
    destruct (run fuel sp1 rest) as [[results1 sp2]|] eqn:H2; [|discriminate].
    inversion H; subst; clear H.
    apply Space_insert_inv in H1.
    rewrite (IH _ _ _ _ H2). eapply Node_insert_bounds; eauto.
Qed.

Lemma sample_tree_wf : wf sample_tree.
Proof.
  simpl. unfold rect_ok, tiles, int_min, int_max. simpl.
  split; [lia|]. split.
  { right. exists 4. split; [lia|]. split; reflexivity. }
  split; [|lia]. split; [lia|]. split; [|split; lia].
  left. exists 4. split; [lia|]. split; reflexivity.
Qed.

Lemma sample_tree_run :
  run 3 (BinPackingSpace_new (mkSize 10 10)) [mkSize 4 4]
  = Some ([Some (mkRect (mkPoint 0 0) (mkSize 4 4))], mkSpace sample_tree).
Proof. reflexivity. Qed.

(** X1 ([getSize]).  After any sequence of calls that return, whatever the
    requests, [getSize] is the size the space was constructed with. *)
Theorem getSize_is_construction_size
  (sz : Size2i) (requests : list Size2i) (fuel : nat) results sp' :
  run fuel (BinPackingSpace_new sz) requests = Some (results, sp') ->
  getSize sp' = sz.
Proof.
  intros H. unfold getSize. rewrite (run_bounds _ _ _ _ _ H). reflexivity.
Qed.

Lemma getSize_is_construction_size_witness :
  run 3 (BinPackingSpace_new (mkSize 10 10)) [mkSize 4 4]
  = Some ([Some (mkRect (mkPoint 0 0) (mkSize 4 4))], mkSpace sample_tree) /\
  getSize (mkSpace sample_tree) = mkSize 10 10.
Proof.
  split; [reflexivity|].
  exact (getSize_is_construction_size _ _ _ _ _ sample_tree_run).
Defined.

(** X2 (first fit).  On a well-formed tree a call with a non-negative [int]
    size returns the request placed at the origin of the first leaf, in the
    order child 0 before child 1, that is free and at least as wide and as
    high as the request; it returns no placement when there is no such
    leaf. *)
Theorem insert_is_first_fit (n : Node) (sz : Size2i) (fuel : nat) :
  wf n -> nonneg sz -> size_int sz -> (tree_height n + 3 <= fuel)%nat ->
  exists n', Node_insert fuel n sz = Some (first_fit n sz, n').
Proof.
  intros Hwf Hs Hi Hfuel.
  destruct (Node_insert fuel n sz) as [[res n']|] eqn:H.
  - exists n'. rewrite (Node_insert_first_fit _ _ _ _ _ Hi H). reflexivity.
  - exfalso. apply (Node_insert_total _ _ Hwf Hs fuel Hfuel H).
Qed.

Lemma insert_is_first_fit_witness :
  wf sample_tree /\ nonneg (mkSize 5 3) /\ size_int (mkSize 5 3) /\
  (tree_height sample_tree + 3 <= 5)%nat /\
  exists n',
    Node_insert 5 sample_tree (mkSize 5 3)
    = Some (Some (mkRect (mkPoint 4 0) (mkSize 5 3)), n').
Proof.
  assert (H2 : nonneg (mkSize 5 3)) by (unfold nonneg; simpl; lia).
  assert (H3 : size_int (mkSize 5 3))
    by (unfold size_int, in_int, int_min, int_max; simpl; lia).
  assert (H4 : (tree_height sample_tree + 3 <= 5)%nat) by (simpl; lia).
  split; [exact sample_tree_wf|]. split; [exact H2|]. split; [exact H3|].
  split; [exact H4|].
  exact (insert_is_first_fit sample_tree (mkSize 5 3) 5 sample_tree_wf
           H2 H3 H4).
Defined.

(** X3 (a failing call changes nothing).  When [insert] returns no placement
    for an [int] size, the space after the call is the space before it, for
    every tree: no leaf was split and none was marked. *)
Theorem failed_insert_changes_nothing
  (fuel : nat) (sp : BinPackingSpace) (sz : Size2i) (sp' : BinPackingSpace) :
  size_int sz ->
  BinPackingSpace_insert fuel sp sz = Some (None, sp') -> sp' = sp.
Proof.
  intros Hi H. apply Space_insert_inv in H.
  apply (Node_insert_fail_same _ _ _ _ Hi) in H.
  destruct sp, sp'; simpl in *. congruence.
Qed.

Lemma failed_insert_changes_nothing_witness :
  size_int (mkSize 7 7) /\
  BinPackingSpace_insert 3 (mkSpace sample_tree) (mkSize 7 7)
  = Some (None, mkSpace sample_tree) /\
  mkSpace sample_tree = mkSpace sample_tree.
Proof.
  assert (H1 : size_int (mkSize 7 7))
    by (unfold size_int, in_int, int_min, int_max; simpl; lia).
  assert (H2 : BinPackingSpace_insert 3 (mkSpace sample_tree) (mkSize 7 7)
               = Some (None, mkSpace sample_tree)) by reflexivity.
  split; [exact H1|]. split; [exact H2|].
  exact (failed_insert_changes_nothing _ _ _ _ H1 H2).
Defined.

(** X4 (the taken leaves are the placements).  After any sequence of calls
    that return, whatever the requests, the taken leaves of the tree are
    exactly the rectangles the calls returned, each once: a call marks one
    leaf per placement and nothing ever unmarks one. *)
Theorem taken_leaves_are_placements
  (sz : Size2i) (requests : list Size2i) (fuel : nat) results sp' :
  run fuel (BinPackingSpace_new sz) requests = Some (results, sp') ->
  Permutation (taken_leaves (root sp')) (placements results).
Proof.
  intros H. exact (run_taken_leaves _ _ _ _ _ H).
Qed.

Lemma taken_leaves_are_placements_witness :
  run 3 (BinPackingSpace_new (mkSize 10 10)) [mkSize 4 4]
  = Some ([Some (mkRect (mkPoint 0 0) (mkSize 4 4))], mkSpace sample_tree) /\
  Permutation (taken_leaves sample_tree)
              [mkRect (mkPoint 0 0) (mkSize 4 4)].
Proof.
  split; [reflexivity|].
  exact (taken_leaves_are_placements _ _ _ _ _ sample_tree_run).
Defined.

(** X5 (area).  On a space of non-negative [int] size, after any sequence of
    calls with non-negative sizes, the areas of the rectangles handed out add
    up to at most the area of the space. *)
Theorem placed_area_bounded
  (sz : Size2i) (requests : list Size2i) (fuel : nat) :
  size_int sz -> nonneg sz -> Forall nonneg requests ->
  (2 * length requests + 3 <= fuel)%nat ->
  exists results sp',
    run fuel (BinPackingSpace_new sz) requests = Some (results, sp') /\
    0 <= total_area (placements results) <= width sz * height sz.
Proof.
  intros Hsz [Hw Hh] Hnn Hfuel.
  pose proof (new_wf sz Hsz) as Hwf.
  destruct (run fuel (BinPackingSpace_new sz) requests)
    as [[results sp']|] eqn:Hrun.
  - exists results, sp'. split; [reflexivity|].
    destruct (run_invariant _ _ _ _ _ Hwf Hnn Hrun) as (W & B & _).
    pose proof (run_taken_leaves _ _ _ _ _ Hrun) as P. simpl in P.
    rewrite <- (total_area_perm _ _ P).
    pose proof (wf_taken_area _ W) as A. rewrite B in A. simpl in A.
    apply A; assumption.
  - exfalso. apply (run_total requests fuel _ Hwf Hnn); [simpl; lia | exact Hrun].
Qed.

Lemma placed_area_bounded_witness :
  size_int (mkSize 10 10) /\ nonneg (mkSize 10 10) /\
  Forall nonneg [mkSize 4 4; mkSize 7 3; mkSize 6 6] /\
  exists results sp',
    run 9 (BinPackingSpace_new (mkSize 10 10))
        [mkSize 4 4; mkSize 7 3; mkSize 6 6] = Some (results, sp') /\
    0 <= total_area (placements results)
      <= width (mkSize 10 10) * height (mkSize 10 10).
Proof.
  assert (H1 : size_int (mkSize 10 10))
    by (unfold size_int, in_int, int_min, int_max; simpl; lia).
  assert (H2 : nonneg (mkSize 10 10)) by (unfold nonneg; simpl; lia).
  assert (H3 : Forall nonneg [mkSize 4 4; mkSize 7 3; mkSize 6 6])
    by (repeat constructor; simpl; lia).
  split; [exact H1|]. split; [exact H2|]. split; [exact H3|].
  refine (placed_area_bounded _ _ 9 H1 H2 H3 _). simpl; lia.
Defined.

(** X6 (growth).  On a well-formed tree a call with a non-negative size
    returns, never removes a node, and adds at most four nodes and two
    levels: it splits at most twice, once per dimension in which the chosen
    leaf is larger than the request. *)
Theorem insert_adds_at_most_two_splits (n : Node) (sz : Size2i) (fuel : nat) :
  wf n -> nonneg sz -> (tree_height n + 3 <= fuel)%nat ->
  exists res n',
    Node_insert fuel n sz = Some (res, n') /\
    (node_count n <= node_count n' <= node_count n + 4)%nat /\
    (tree_height n' <= tree_height n + 2)%nat.
Proof.
  intros Hwf Hs Hfuel.
  destruct (Node_insert fuel n sz) as [[res n']|] eqn:H.
  - exists res, n'. split; [reflexivity|]. split.
    + eapply Node_insert_nodes; eauto.
    + eapply Node_insert_height; eauto.
  - exfalso. apply (Node_insert_total _ _ Hwf Hs fuel Hfuel H).
Qed.

Lemma insert_adds_at_most_two_splits_witness :
  wf sample_tree /\ nonneg (mkSize 1 1) /\
  (tree_height sample_tree + 3 <= 5)%nat /\
  exists res n',
    Node_insert 5 sample_tree (mkSize 1 1) = Some (res, n') /\
    (node_count sample_tree <= node_count n' <= node_count sample_tree + 4)%nat
    /\ (tree_height n' <= tree_height sample_tree + 2)%nat.
Proof.
  assert (H2 : nonneg (mkSize 1 1)) by (unfold nonneg; simpl; lia).
  assert (H3 : (tree_height sample_tree + 3 <= 5)%nat) by (simpl; lia).
  split; [exact sample_tree_wf|]. split; [exact H2|]. split; [exact H3|].
  exact (insert_adds_at_most_two_splits sample_tree (mkSize 1 1) 5
           sample_tree_wf H2 H3).
Defined.

(** X7 (no space is lost).  On a space of [int] size, after any sequence of
    calls with non-negative sizes, every point of the surface is in a leaf
    that is still free or in a rectangle that was handed out, never in both,
    and neither reaches outside the surface. *)
Theorem surface_is_free_or_placed
  (sz : Size2i) (requests : list Size2i) (fuel : nat) :
  size_int sz -> Forall nonneg requests ->
  (2 * length requests + 3 <= fuel)%nat ->
  exists results sp',
    run fuel (BinPackingSpace_new sz) requests = Some (results, sp') /\
    forall p,
      (contains (rect_of_size sz) p <->
       free_at (root sp') p \/
       exists r, In (Some r) results /\ contains r p) /\
      ~ (free_at (root sp') p /\
         exists r, In (Some r) results /\ contains r p).
Proof.
  intros Hsz Hnn Hfuel.
  pose proof (new_wf sz Hsz) as Hwf.
  destruct (run fuel (BinPackingSpace_new sz) requests)
    as [[results sp']|] eqn:Hrun.
  - exists results, sp'. split; [reflexivity|]. intros p.
    destruct (run_invariant _ _ _ _ _ Hwf Hnn Hrun)
      as (_ & _ & _ & Hin & _ & Hmono).
    destruct (run_free_split _ _ _ _ _ Hwf Hnn Hrun p) as [Ha Hb].
    rewrite Forall_forall in Hin. simpl in *.
    split; [split|].
    + intros Hp. destruct (Ha (conj eq_refl Hp)) as [Hf | (r & Hr & Hc)].
      * left; exact Hf.
      * right. exists r. split; [apply placements_In; exact Hr | exact Hc].
    + intros [Hf | (r & Hr & Hc)].
      * apply Hmono in Hf. apply Hf.
      * apply placements_In in Hr.
        eapply rect_within_contains; [apply (Hin r Hr) | exact Hc].
    + intros [Hf (r & Hr & Hc)]. apply placements_In in Hr.
      exact (Hb Hf r Hr Hc).
  - exfalso. apply (run_total requests fuel _ Hwf Hnn); [simpl; lia | exact Hrun].
Qed.

Lemma surface_is_free_or_placed_witness :
  size_int (mkSize 10 10) /\
  Forall nonneg [mkSize 4 4; mkSize 7 3] /\
  exists results sp',
    run 7 (BinPackingSpace_new (mkSize 10 10)) [mkSize 4 4; mkSize 7 3]
    = Some (results, sp') /\
    forall p,
      (contains (rect_of_size (mkSize 10 10)) p <->
       free_at (root sp') p \/
       exists r, In (Some r) results /\ contains r p) /\
      ~ (free_at (root sp') p /\
         exists r, In (Some r) results /\ contains r p).
Proof.
  assert (H1 : size_int (mkSize 10 10))
    by (unfold size_int, in_int, int_min, int_max; simpl; lia).
  assert (H2 : Forall nonneg [mkSize 4 4; mkSize 7 3])
    by (repeat constructor; simpl; lia).
  split; [exact H1|]. split; [exact H2|].
  refine (surface_is_free_or_placed _ _ 7 H1 H2 _). simpl; lia.
Defined.

(** X8 (positions persist).  Whatever the tree and the request, a call that
    returns leaves every node where it was with the bounds it had; a taken
    leaf is still the same taken leaf after the call, and an internal node is
    still internal. *)
Theorem insert_keeps_positions
  (fuel : nat) (n : Node) (sz : Size2i) res n' (path : list bool) (m : Node) :
  Node_insert fuel n sz = Some (res, n') ->
  subtree n path = Some m ->
  exists m',
    subtree n' path = Some m' /\ bounds m' = bounds m /\
    (forall b, m = Leaf b true -> m' = m) /\
    (forall b tk c0 c1, m = Branch b tk c0 c1 ->
                        exists c0' c1', m' = Branch b tk c0' c1').
Proof.
  intros H Hsub. exact (Node_insert_persist _ _ _ _ _ _ _ H Hsub).
Qed.

Lemma insert_keeps_positions_witness :
  Node_insert 5 sample_tree (mkSize 1 1)
  = Some (Some (mkRect (mkPoint 4 0) (mkSize 1 1)),
          Branch (mkRect (mkPoint 0 0) (mkSize 10 10)) false
            (Branch (mkRect (mkPoint 0 0) (mkSize 10 4)) false
               (Leaf (mkRect (mkPoint 0 0) (mkSize 4 4)) true)
               (Branch (mkRect (mkPoint 4 0) (mkSize 6 4)) false
                  (Branch (mkRect (mkPoint 4 0) (mkSize 1 4)) false
                     (Leaf (mkRect (mkPoint 4 0) (mkSize 1 1)) true)
                     (Leaf (mkRect (mkPoint 4 1) (mkSize 1 3)) false))
                  (Leaf (mkRect (mkPoint 5 0) (mkSize 5 4)) false)))
            (Leaf (mkRect (mkPoint 0 4) (mkSize 10 6)) false)) /\
  subtree sample_tree [false; false]
  = Some (Leaf (mkRect (mkPoint 0 0) (mkSize 4 4)) true) /\
  exists m',
    subtree
      (Branch (mkRect (mkPoint 0 0) (mkSize 10 10)) false
         (Branch (mkRect (mkPoint 0 0) (mkSize 10 4)) false
            (Leaf (mkRect (mkPoint 0 0) (mkSize 4 4)) true)
            (Branch (mkRect (mkPoint 4 0) (mkSize 6 4)) false
               (Branch (mkRect (mkPoint 4 0) (mkSize 1 4)) false
                  (Leaf (mkRect (mkPoint 4 0) (mkSize 1 1)) true)
                  (Leaf (mkRect (mkPoint 4 1) (mkSize 1 3)) false))
               (Leaf (mkRect (mkPoint 5 0) (mkSize 5 4)) false)))
         (Leaf (mkRect (mkPoint 0 4) (mkSize 10 6)) false))
      [false; false] = Some m' /\
    bounds m' = bounds (Leaf (mkRect (mkPoint 0 0) (mkSize 4 4)) true) /\
    (forall b, Leaf (mkRect (mkPoint 0 0) (mkSize 4 4)) true = Leaf b true ->
               m' = Leaf (mkRect (mkPoint 0 0) (mkSize 4 4)) true) /\
    (forall b tk c0 c1,
       Leaf (mkRect (mkPoint 0 0) (mkSize 4 4)) true = Branch b tk c0 c1 ->
       exists c0' c1', m' = Branch b tk c0' c1').
Proof.
  split; [reflexivity|]. split; [reflexivity|].
  refine (insert_keeps_positions 5 sample_tree (mkSize 1 1) _ _
            [false; false] _ _ _); reflexivity.
Defined.

(** ** Convolution *)

Lemma list_set_length {T : Type} (l : list T) (i : nat) (v : T) :
  length (list_set l i v) = length l.
Proof.
  revert i; induction l as [|a l IH]; intros [|i]; simpl; auto.
Qed.

Lemma list_set_same {T : Type} (l : list T) (i : nat) (v o : T) :
  nth_error l i = Some o -> nth_error (list_set l i v) i = Some v.
Proof.
  revert i; induction l as [|a l IH]; intros [|i]; simpl; try discriminate;
    auto.
Qed.

Lemma list_set_other {T : Type} (l : list T) (i j : nat) (v : T) :
  j <> i -> nth_error (list_set l i v) j = nth_error l j.
Proof.
  revert i j; induction l as [|a l IH]; intros [|i] [|j] H; simpl; auto;
    try contradiction.
Qed.

Lemma nth_error_in_range {T : Type} (l : list T) (i : nat) :
  (i < length l)%nat -> exists a, nth_error l i = Some a.
Proof.
  intros H. destruct (nth_error l i) as [a|] eqn:E; [eauto|].
  apply nth_error_None in E. lia.
Qed.

Lemma nth_error_repeat_in {T : Type} (a : T) (n i : nat) :
  (i < n)%nat -> nth_error (repeat a n) i = Some a.
Proof.
  revert i; induction n as [|n IH]; intros [|i] H; simpl; try lia; auto.
  apply IH. lia.
Qed.

Lemma for_loop_ext {St : Type} (f g : nat -> St -> outcome St) :
  (forall k s, f k s = g k s) ->
  forall count from s, for_loop f from count s = for_loop g from count s.
Proof.
  intros E. induction count as [|count IH]; intros from s; simpl;
    [reflexivity|].
  rewrite E. destruct (g from s); auto.
Qed.

(** A function that is empty outside [0 .. m - 1] can be mapped over any
    longer or shorter range that contains the indices where it is not. *)
Lemma flat_map_seq_empty {T : Type} (f : nat -> list T) :
  forall count from,
  (forall h, (from <= h)%nat -> f h = []) ->
  flat_map f (seq from count) = [].
Proof.
  induction count as [|count IH]; intros from H; simpl; [reflexivity|].
  rewrite (H from) by lia. rewrite IH; [reflexivity|].
  intros h Hh. apply H. lia.
Qed.

Lemma flat_map_seq_min {T : Type} (f : nat -> list T) (m n : nat) :
  (forall h, (m <= h)%nat -> f h = []) ->
  flat_map f (seq 0 n) = flat_map f (seq 0 (Nat.min m n)).
Proof.
  intros H. destruct (Nat.le_ge_cases n m) as [Hle | Hge].
  - rewrite Nat.min_r by lia. reflexivity.
  - rewrite Nat.min_l by lia.
    replace n with (m + (n - m))%nat at 1 by lia.
    rewrite seq_app, flat_map_app.
    rewrite (flat_map_seq_empty f (n - m) (0 + m)) by (intros; apply H; lia).
    apply app_nil_r.
Qed.

Lemma flat_map_seq_cut {T : Type} (f : nat -> list T) (m n : nat) :
  (forall h, (m <= h)%nat \/ (n <= h)%nat -> f h = []) ->
  flat_map f (seq 0 n) = flat_map f (seq 0 m).
Proof.
  intros H.
  rewrite (flat_map_seq_min f m n) by (intros; apply H; lia).
  rewrite (flat_map_seq_min f n m) by (intros; apply H; lia).
  rewrite Nat.min_comm. reflexivity.
Qed.

Lemma flat_map_rev_short {T U : Type} (f : T -> list U) (l : list T) :
  (forall a, (length (f a) <= 1)%nat) ->
  flat_map f (rev l) = rev (flat_map f l).
Proof.
  intros H. induction l as [|a l IH]; simpl; [reflexivity|].
  rewrite flat_map_app, rev_app_distr, IH. simpl. rewrite app_nil_r.
  f_equal. specialize (H a).
  destruct (f a) as [|b [|c rest]]; simpl in *; try reflexivity; lia.
Qed.

Lemma seq_mirror (j : nat) :
  map (fun i => (j - i)%nat) (seq 0 (S j)) = rev (seq 0 (S j)).
Proof.
  induction j as [|j IH]; [reflexivity|].
  assert (R : rev (seq 0 (S (S j))) = S j :: rev (seq 0 (S j))).
  { rewrite (seq_S (S j) 0), rev_app_distr. reflexivity. }
  rewrite R, <- IH.
  rewrite <- (cons_seq (S j) 0), <- seq_shift.
  rewrite map_cons, map_map. reflexivity.
Qed.

Lemma flat_map_map_in {T U V : Type} (g : T -> U) (f : U -> list V)
  (l : list T) :
  flat_map f (map g l) = flat_map (fun a => f (g a)) l.
Proof.
  induction l as [|a l IH]; simpl; [reflexivity|]. rewrite IH. reflexivity.
Qed.

Lemma flat_map_ext_in_seq {T : Type} (f g : nat -> list T) (n : nat) :
  (forall i, (i < n)%nat -> f i = g i) ->
  flat_map f (seq 0 n) = flat_map g (seq 0 n).
Proof.
  intros H.
  assert (G : forall count from, (from + count <= n)%nat ->
            flat_map f (seq from count) = flat_map g (seq from count)).
  { induction count as [|count IH]; intros from Hle; simpl; [reflexivity|].
    rewrite (H from) by lia. rewrite IH by lia. reflexivity. }
  apply G. lia.
Qed.


Lemma list_eq_nth_error {T : Type} (l l' : list T) :
  (forall j, nth_error l j = nth_error l' j) -> l = l'.
Proof.
  revert l'; induction l as [|a l IH]; intros [|a' l'] H.
  - reflexivity.
  - specialize (H 0%nat); discriminate.
  - specialize (H 0%nat); discriminate.
  - pose proof (H 0%nat) as H0. simpl in H0. injection H0 as ->.
    f_equal. apply IH. intros j. exact (H (S j)).
Qed.

Lemma fold_left_permutation {T : Type} (f : T -> T -> T) :
  (forall a b c, f (f a b) c = f (f a c) b) ->
  forall l l', Permutation l l' ->
  forall a, fold_left f l a = fold_left f l' a.
Proof.
  intros Hf l l' P. induction P; intros a; simpl.
  - reflexivity.
  - apply IHP.
  - rewrite Hf. reflexivity.
  - rewrite IHP1. apply IHP2.
Qed.

Section ConvolutionFacts.
Variables A B F : Type.
Variable zero : F.
Variable add : F -> F -> F.
Variable mul : B -> A -> F.
Variable input : list A.
Variable kernel : list B.

(** The inner loop of [convolve] for output sample [i]: it stays inside
    the three buffers, touches only [output[i]], and adds to it the
    products of the kernel elements it runs over, in that order. *)
Lemma convolve_inner (i : nat) :
  forall count from output,
  (i < length output)%nat -> (from + count <= length kernel)%nat ->
  exists output',
    for_loop
      (fun h output =>
         if Z.of_nat i - Z.of_nat h <? 0 then Ok output
         else if Z.of_nat i - Z.of_nat h >=? Z.of_nat (length input)
         then Ok output
         else accumulate add mul input kernel i h
                (Z.to_nat (Z.of_nat i - Z.of_nat h)) output)
      from count output = Ok output' /\
    length output' = length output /\
    (forall j, j <> i -> nth_error output' j = nth_error output j) /\
    (forall o, nth_error output i = Some o ->
       nth_error output' i
       = Some (fold_left add
                 (flat_map (term_out mul input kernel i) (seq from count))
                 o)).
Proof.
  induction count as [|count IH]; intros from output Hi Hk.
  - exists output. simpl. auto.
  - simpl for_loop. cbv beta.
    assert (Hstep : exists output1,
      (if Z.of_nat i - Z.of_nat from <? 0 then Ok output
       else if Z.of_nat i - Z.of_nat from >=? Z.of_nat (length input)
       then Ok output
       else accumulate add mul input kernel i from
              (Z.to_nat (Z.of_nat i - Z.of_nat from)) output) = Ok output1 /\
      length output1 = length output /\
      (forall j, j <> i -> nth_error output1 j = nth_error output j) /\
      (forall o, nth_error output i = Some o ->
         nth_error output1 i
         = Some (fold_left add (term_out mul input kernel i from) o))).
    { unfold term_out.
      destruct (Z.ltb_spec (Z.of_nat i - Z.of_nat from) 0) as [Hlt | Hge].
      { exists output. replace (from <=? i)%nat with false
          by (symmetry; apply Nat.leb_gt; lia). simpl. auto. }
      destruct (Z.geb_spec (Z.of_nat i - Z.of_nat from)
                  (Z.of_nat (length input))) as [Hbig | Hin].
      { exists output. replace (i - from <? length input)%nat with false
          by (symmetry; apply Nat.ltb_ge; lia).
        rewrite andb_false_r. simpl. auto. }
      replace (Z.to_nat (Z.of_nat i - Z.of_nat from)) with (i - from)%nat
        by lia.
      replace (from <=? i)%nat with true
        by (symmetry; apply Nat.leb_le; lia).
      replace (i - from <? length input)%nat with true
        by (symmetry; apply Nat.ltb_lt; lia).
      simpl. unfold accumulate.
      destruct (nth_error_in_range output i Hi) as [o Ho].
      destruct (nth_error_in_range kernel from) as [k Hkk]; [lia|].
      destruct (nth_error_in_range input (i - from)) as [a Ha]; [lia|].
      rewrite Ho, Hkk, Ha.
      exists (list_set output i (add o (mul k a))).
      split; [reflexivity|]. split; [apply list_set_length|].
      split; [intros j Hj; apply list_set_other; exact Hj|].
      intros o' Ho'. injection Ho' as <-.
      simpl. eapply list_set_same; eauto. }
    destruct Hstep as (output1 & E1 & L1 & O1 & S1). rewrite E1.
    destruct (IH (S from) output1) as (output' & E' & L' & O' & S');
      [lia | lia |].
    exists output'. split; [exact E'|]. split; [lia|].
    split; [intros j Hj; rewrite (O' j Hj); apply O1; exact Hj|].
    intros o Ho. simpl. rewrite fold_left_app.
    apply S'. apply S1. exact Ho.
Qed.

Lemma convolve_outer :
  forall count from output,
  (from + count <= length output)%nat ->
  exists output',
    for_loop
      (fun i output =>
         for_loop
           (fun h output =>
              if Z.of_nat i - Z.of_nat h <? 0 then Ok output
              else if Z.of_nat i - Z.of_nat h >=? Z.of_nat (length input)
              then Ok output
              else accumulate add mul input kernel i h
                     (Z.to_nat (Z.of_nat i - Z.of_nat h)) output)
           0 (Z.to_nat (Z.of_nat (length kernel))) output)
      from count output = Ok output' /\
    length output' = length output /\
    (forall j o, nth_error output j = Some o ->
       nth_error output' j
       = Some (if (from <=? j)%nat && (j <? from + count)%nat
               then fold_left add
                      (flat_map (term_out mul input kernel j)
                                (seq 0 (length kernel))) o
               else o)).
Proof.
  rewrite Nat2Z.id.
  induction count as [|count IH]; intros from output Hlen.
  - exists output. split; [reflexivity|]. split; [reflexivity|].
    intros j o Ho. rewrite Ho. f_equal.
    destruct (Nat.leb_spec from j), (Nat.ltb_spec j (from + 0));
      simpl; try reflexivity; lia.
  - simpl for_loop.
    destruct (convolve_inner from (length kernel) 0 output)
      as (output1 & E1 & L1 & O1 & S1); [lia | lia |].
    rewrite E1.
    destruct (IH (S from) output1) as (output' & E' & L' & S'); [lia|].
    exists output'. split; [exact E'|]. split; [lia|].
    intros j o Ho.
    destruct (Nat.eq_dec j from) as [-> | Hne].
    + rewrite (S' _ _ (S1 _ Ho)). f_equal.
      destruct (Nat.leb_spec (S from) from); [lia|]. simpl.
      destruct (Nat.leb_spec from from), (Nat.ltb_spec from (from + S count));
        simpl; try reflexivity; lia.
    + rewrite <- (O1 j Hne) in Ho. rewrite (S' _ _ Ho). f_equal.
      destruct (Nat.leb_spec (S from) j), (Nat.ltb_spec j (S from + count)),
               (Nat.leb_spec from j), (Nat.ltb_spec j (from + S count));
        simpl; try reflexivity; lia.
Qed.

(** What [convolve] returns for buffers that are not both empty. *)
Lemma convolve_ok :
  (0 < length input + length kernel)%nat ->
  exists output,
    convolve zero add mul input kernel = Ok output /\
    length output = (length input + length kernel - 1)%nat /\
    forall j, (j < length output)%nat ->
      nth_error output j
      = Some (fold_left add
                (flat_map (term_out mul input kernel j)
                          (seq 0 (length kernel))) zero).
Proof.
  intros Hpos. unfold convolve.
  destruct (Z.ltb_spec (Z.of_nat (length input) + Z.of_nat (length kernel) - 1)
              0) as [Hneg | Hsize]; [lia|].
  replace (Z.to_nat (Z.of_nat (length input) + Z.of_nat (length kernel) - 1))
    with (length input + length kernel - 1)%nat by lia.
  destruct (convolve_outer (length input + length kernel - 1) 0
              (repeat zero (length input + length kernel - 1)))
    as (output & E & L & S); [rewrite repeat_length; lia|].
  rewrite repeat_length in L.
  exists output. split; [exact E|]. split; [exact L|].
  intros j Hj. rewrite (S j zero).
  - f_equal.
    destruct (Nat.leb_spec 0 j),
             (Nat.ltb_spec j (0 + (length input + length kernel - 1)));
      simpl; try reflexivity; lia.
  - apply nth_error_repeat_in. lia.
Qed.


(** The inner loop of [convolveInputSide] for input element [i]: it stays
    inside the three buffers and adds one product to each of the output
    samples [i + from .. i + from + count - 1]. *)
Lemma convolveInputSide_inner (i : nat) :
  (i < length input)%nat ->
  forall count from output,
  (i + from + count <= length output)%nat ->
  (from + count <= length kernel)%nat ->
  exists output',
    for_loop
      (fun h output => accumulate add mul input kernel (i + h) h i output)
      from count output = Ok output' /\
    length output' = length output /\
    (forall j o, nth_error output j = Some o ->
       nth_error output' j
       = Some (if (i + from <=? j)%nat && (j <? i + from + count)%nat
               then fold_left add (term_in mul input kernel j i) o
               else o)).
Proof.
  intros Hi.
  induction count as [|count IH]; intros from output Hlen Hk.
  - exists output. split; [reflexivity|]. split; [reflexivity|].
    intros j o Ho. rewrite Ho. f_equal.
    destruct (Nat.leb_spec (i + from) j), (Nat.ltb_spec j (i + from + 0));
      simpl; try reflexivity; lia.
  - simpl for_loop. unfold accumulate at 1.
    destruct (nth_error_in_range output (i + from)) as [o0 Ho0]; [lia|].
    destruct (nth_error_in_range kernel from) as [k Hkk]; [lia|].
    destruct (nth_error_in_range input i Hi) as [a Ha].
    rewrite Ho0, Hkk, Ha.
    destruct (IH (S from) (list_set output (i + from) (add o0 (mul k a))))
      as (output' & E' & L' & S');
      [rewrite list_set_length; lia | lia |].
    rewrite list_set_length in L'.
    exists output'. split; [exact E'|]. split; [exact L'|].
    intros j o Ho.
    destruct (Nat.eq_dec j (i + from)) as [-> | Hne].
    + rewrite Ho0 in Ho. injection Ho as <-.
      rewrite (S' (i + from)%nat (add o0 (mul k a)))
        by (eapply list_set_same; eauto).
      f_equal.
      destruct (Nat.leb_spec (i + S from) (i + from)); [lia|]. simpl.
      destruct (Nat.leb_spec (i + from) (i + from)),
               (Nat.ltb_spec (i + from) (i + from + S count));
        simpl; try lia.
      unfold term_in.
      replace (i + from - i)%nat with from by lia.
      replace (i <=? i + from)%nat with true
        by (symmetry; apply Nat.leb_le; lia).
      replace (from <? length kernel)%nat with true
        by (symmetry; apply Nat.ltb_lt; lia).
      simpl. rewrite Hkk, Ha. reflexivity.
    + rewrite (S' j o) by (rewrite list_set_other; assumption).
      f_equal.
      destruct (Nat.leb_spec (i + S from) j),
               (Nat.ltb_spec j (i + S from + count)),
               (Nat.leb_spec (i + from) j),
               (Nat.ltb_spec j (i + from + S count));
        simpl; try reflexivity; lia.
Qed.

Lemma convolveInputSide_outer :
  forall count from output,
  (from + count <= length input)%nat ->
  length output = (length input + length kernel - 1)%nat ->
  exists output',
    for_loop
      (fun i output =>
         for_loop
           (fun h output => accumulate add mul input kernel (i + h) h i output)
           0 (Z.to_nat (Z.of_nat (length kernel))) output)
      from count output = Ok output' /\
    length output' = length output /\
    (forall j o, nth_error output j = Some o ->
       nth_error output' j
       = Some (fold_left add
                 (flat_map (term_in mul input kernel j) (seq from count))
                 o)).
Proof.
  rewrite Nat2Z.id.
  induction count as [|count IH]; intros from output Hn Hlen.
  - exists output. simpl. auto.
  - simpl for_loop.
    destruct (convolveInputSide_inner from) with
      (count := length kernel) (from := 0%nat) (output := output)
      as (output1 & E1 & L1 & S1); [lia | lia | lia |].
    rewrite E1.
    destruct (IH (S from) output1) as (output' & E' & L' & S'); [lia | lia |].
    exists output'. split; [exact E'|]. split; [lia|].
    intros j o Ho. rewrite (S' _ _ (S1 _ _ Ho)).
    simpl. rewrite fold_left_app. do 2 f_equal.
    unfold term_in.
    destruct (Nat.leb_spec (from + 0) j),
             (Nat.ltb_spec j (from + 0 + length kernel)),
             (Nat.leb_spec from j),
             (Nat.ltb_spec (j - from) (length kernel));
      simpl; try reflexivity; lia.
Qed.

(** What [convolveInputSide] returns for buffers that are not both empty. *)
Lemma convolveInputSide_ok :
  (0 < length input + length kernel)%nat ->
  exists output,
    convolveInputSide zero add mul input kernel = Ok output /\
    length output = (length input + length kernel - 1)%nat /\
    forall j, (j < length output)%nat ->
      nth_error output j
      = Some (fold_left add
                (flat_map (term_in mul input kernel j)
                          (seq 0 (length input))) zero).
Proof.
  intros Hpos. unfold convolveInputSide.
  destruct (Z.ltb_spec (Z.of_nat (length input) + Z.of_nat (length kernel) - 1)
              0) as [Hneg | Hsize]; [lia|].
  replace (Z.to_nat (Z.of_nat (length input) + Z.of_nat (length kernel) - 1))
    with (length input + length kernel - 1)%nat by lia.
  rewrite (Nat2Z.id (length input)).
  destruct (convolveInputSide_outer (length input) 0
              (repeat zero (length input + length kernel - 1)))
    as (output & E & L & S); [lia | apply repeat_length |].
  rewrite repeat_length in L.
  exists output. split; [exact E|]. split; [exact L|].
  intros j Hj. apply S. apply nth_error_repeat_in. lia.
Qed.


(** The product of kernel element [h] and input element [j - h], when both
    exist. *)
Lemma term_out_product (j h : nat) :
  (h <= j)%nat ->
  term_out mul input kernel j h
  = match nth_error kernel h, nth_error input (j - h) with
    | Some k, Some a => [mul k a]
    | _, _ => []
    end.
Proof.
  intros Hle. unfold term_out.
  replace (h <=? j)%nat with true by (symmetry; apply Nat.leb_le; lia).
  destruct (Nat.ltb_spec (j - h) (length input)) as [Hin | Hout]; simpl;
    [reflexivity|].
  apply nth_error_None in Hout. rewrite Hout.
  destruct (nth_error kernel h); reflexivity.
Qed.

Lemma term_in_product (j i : nat) :
  (i <= j)%nat ->
  term_in mul input kernel j i = term_out mul input kernel j (j - i).
Proof.
  intros Hle. rewrite term_out_product by lia. unfold term_in.
  replace (j - (j - i))%nat with i by lia.
  replace (i <=? j)%nat with true by (symmetry; apply Nat.leb_le; lia).
  destruct (Nat.ltb_spec (j - i) (length kernel)) as [Hin | Hout]; simpl;
    [reflexivity|].
  apply nth_error_None in Hout. rewrite Hout. reflexivity.
Qed.

Lemma term_out_none (j h : nat) :
  (j < h)%nat \/ (length kernel <= h)%nat -> term_out mul input kernel j h = [].
Proof.
  intros [Hlt | Hk]; unfold term_out.
  - replace (h <=? j)%nat with false by (symmetry; apply Nat.leb_gt; lia).
    reflexivity.
  - apply nth_error_None in Hk. rewrite Hk.
    destruct ((h <=? j)%nat && (j - h <? length input)%nat); reflexivity.
Qed.

Lemma term_in_none (j i : nat) :
  (j < i)%nat \/ (length input <= i)%nat -> term_in mul input kernel j i = [].
Proof.
  intros [Hlt | Hk]; unfold term_in.
  - replace (i <=? j)%nat with false by (symmetry; apply Nat.leb_gt; lia).
    reflexivity.
  - apply nth_error_None in Hk. rewrite Hk.
    destruct ((i <=? j)%nat && (j - i <? length kernel)%nat);
      [destruct (nth_error kernel (j - i))|]; reflexivity.
Qed.

Lemma term_out_short (j h : nat) :
  (length (term_out mul input kernel j h) <= 1)%nat.
Proof.
  unfold term_out.
  destruct ((h <=? j)%nat && (j - h <? length input)%nat); simpl; [|lia].
  destruct (nth_error kernel h), (nth_error input (j - h)); simpl; lia.
Qed.

(** Output sample [j] gets the same products on both sides, in opposite
    orders. *)
Lemma terms_in_rev_out (j : nat) :
  flat_map (term_in mul input kernel j) (seq 0 (length input))
  = rev (flat_map (term_out mul input kernel j) (seq 0 (length kernel))).
Proof.
  rewrite (flat_map_seq_cut (term_in mul input kernel j) (S j) (length input))
    by (intros i Hi; apply term_in_none; lia).
  rewrite (flat_map_seq_cut (term_out mul input kernel j) (S j) (length kernel))
    by (intros h Hh; apply term_out_none; lia).
  rewrite <- flat_map_rev_short by apply term_out_short.
  rewrite <- seq_mirror, flat_map_map_in.
  apply flat_map_ext_in_seq.
  intros i Hi. apply term_in_product. lia.
Qed.

End ConvolutionFacts.

(** On integers: a kernel of three taps over three samples, an empty input
    under the same kernel, and two empty buffers. *)
Example convolution_on_integers :
  convolve 0 Z.add Z.mul [1; 2; 3] [1; 10; 100] = Ok [1; 12; 123; 230; 300]
  /\ convolveInputSide 0 Z.add Z.mul [1; 2; 3] [1; 10; 100]
     = Ok [1; 12; 123; 230; 300]
  /\ convolve 0 Z.add Z.mul [] [1; 10; 100] = Ok [0; 0]
  /\ convolve 0 Z.add Z.mul (@nil Z) (@nil Z) = LengthError.
Proof. repeat split; reflexivity. Qed.




